(** * Value-set analysis core: CircleRange and the partition lists of
      ValueSetSolver (Ghidra decompiler, rangeutil.hh)

    A shallow embedding of the inline members of [rangeutil.hh] and the
    properties the specification states about them.

    - [uintb] is an unsigned 64-bit integer, kept as a [Z] with its
      wrap-around written out ([to_uintb]); [int4] is a signed 32-bit
      integer, converted to [uintb] before it meets one in an expression
      (the usual arithmetic conversions of C++).
    - Objects reached through pointers or references ([ValueSet],
      [Partition]) live in a [Memory]; a pointer is an optional address and
      the null pointer is [None].  Dereferencing a null or dangling pointer
      has no result in the embedding. *)

From Stdlib Require Import ZArith Lia List Bool Ascii.
From stdpp Require Import base option list gmap.

Local Open Scope Z_scope.

(** ** Machine integers *)

Definition uintb_modulus : Z := 2 ^ 64.

(** Reduction of a mathematical integer to its [uintb] value. *)
Definition to_uintb (z : Z) : Z := z mod uintb_modulus.

(** Conversion of an [int4] operand to [uintb]: the value modulo 2^64,
    which sign-extends a negative [int4]. *)
Definition uintb_of_int4 (i : Z) : Z := to_uintb i.

Definition uintb_add (a b : Z) : Z := to_uintb (a + b).
Definition uintb_sub (a b : Z) : Z := to_uintb (a - b).

(** ** CircleRange *)

Record CircleRange : Type := mkCircleRange {
  left : Z;          (* uintb: left boundary of the open range [left,right) *)
  right : Z;         (* uintb: right boundary of the open range [left,right) *)
  mask : Z;          (* uintb: bit mask defining the size (modulus) *)
  isempty : bool;    (* true if set is empty *)
  step : Z           (* int4: explicit step size *)
}.

Definition isEmpty (r : CircleRange) : bool := isempty r.

Definition isFull (r : CircleRange) : bool :=
  negb (isempty r) && (step r =? 1) && (left r =? right r).

Definition isSingle (r : CircleRange) : bool :=
  negb (isempty r)
  && (right r =? Z.land (uintb_add (left r) (uintb_of_int4 (step r))) (mask r)).

Definition getMin (r : CircleRange) : Z := left r.

Definition getMax (r : CircleRange) : Z :=
  Z.land (uintb_sub (right r) (uintb_of_int4 (step r))) (mask r).

Definition getEnd (r : CircleRange) : Z := right r.
Definition getMask (r : CircleRange) : Z := mask r.
Definition getStep (r : CircleRange) : Z := step r.

(** [getNext] takes [val] by reference: the embedding returns the boolean
    result together with the new content of [val]. *)
Definition getNext (r : CircleRange) (val : Z) : bool * Z :=
  let val' := Z.land (uintb_add val (uintb_of_int4 (step r))) (mask r) in
  (negb (val' =? right r), val').

Definition operator_eq (r op2 : CircleRange) : bool :=
  if negb (Bool.eqb (isempty r) (isempty op2)) then false
  else if isempty r then true
  else (left r =? left op2) && (right r =? right op2)
       && (mask r =? mask op2) && (step r =? step op2).

(** [encodeRangeOverlaps].  The table [arrange] is a static member whose
    initialiser is not in the header, so it is an argument here; an index
    outside the table reads the default character (the index is shown below
    to stay under 64). *)
Definition encodeRangeOverlaps (arrange : list ascii)
    (op1left op1right op2left op2right : Z) : ascii :=
  let val := if op1left <=? op1right then 0x20 else 0 in
  let val := Z.lor val (if op1left <=? op2left then 0x10 else 0) in
  let val := Z.lor val (if op1left <=? op2right then 0x8 else 0) in
  let val := Z.lor val (if op1right <=? op2left then 4 else 0) in
  let val := Z.lor val (if op1right <=? op2right then 2 else 0) in
  let val := Z.lor val (if op2left <=? op2right then 1 else 0) in
  nth (Z.to_nat val) arrange "000"%char.

(** *** The iteration protocol

    The class comment gives the protocol
<<
     val = range.getMin();
     do {
     } while(range.getNext(val));
>>
    [iterate_from fuel r val] runs the do-while loop from the current [val]
    and returns the values the body saw, in order; [fuel] bounds the number
    of times the body may run, and [None] says the bound was reached with
    the loop still running. *)
Fixpoint iterate_from (fuel : nat) (r : CircleRange) (val : Z) : option (list Z) :=
  match fuel with
  | O => None
  | S fuel' =>
      let '(more, val') := getNext r val in
      if more then
        match iterate_from fuel' r val' with
        | Some vals => Some (val :: vals)
        | None => None
        end
      else Some [val]
  end.

Definition iterate (fuel : nat) (r : CircleRange) : option (list Z) :=
  iterate_from fuel r (getMin r).

(** One step of the protocol as the specification words it. *)
Definition advance (r : CircleRange) (val : Z) : Z :=
  (val + step r) mod (mask r + 1).

(** The value the body sees on its [j]-th run after the first. *)
Definition visited (r : CircleRange) (val : Z) (j : nat) : Z :=
  Nat.iter j (advance r) val.

(** *** Representation invariant

    [mask = 2^n - 1] for some [n <= 64] (class comment); the boundaries lie
    in [0, mask]; [step] is a positive [int4], a power of two not above
    [mask + 1], and divides the circular distance from [left] to [right]. *)
Definition is_mask (m : Z) : bool :=
  (0 <=? m) && (m <? uintb_modulus) && (m + 1 =? 2 ^ Z.log2 (m + 1)).

Definition is_step (m s : Z) : bool :=
  (0 <? s) && (s <? 2 ^ 31) && (s =? 2 ^ Z.log2 s) && (s <=? m + 1).

Definition valid (r : CircleRange) : bool :=
  is_mask (mask r) && is_step (mask r) (step r)
  && (0 <=? left r) && (left r <=? mask r)
  && (0 <=? right r) && (right r <=? mask r)
  && (((right r - left r) mod (mask r + 1)) mod step r =? 0).

(** Membership as the specification's data model words it: [v] is congruent
    to [left] modulo [step] and lies in [left, right) read circularly (the
    interval wraps when [right <= left]). *)
Definition member (r : CircleRange) (v : Z) : Prop :=
  isempty r = false /\ 0 <= v <= mask r /\
  (v - left r) mod step r = 0 /\
  (if left r <? right r then left r <= v < right r
   else left r <= v \/ v < right r).

(** The number of elements of a non-empty range, as a mathematical integer. *)
Definition cardinality (r : CircleRange) : Z :=
  if left r <? right r then (right r - left r) / step r
  else (mask r + 1 - (left r - right r)) / step r.

(** Modelled from the spec: the body of [getSize] is missing from the header
    (line 76 only declares [uintb getSize(void) const]).  The specification
    gives it as the cardinality of the range, zero for the empty range; the
    declared result type is [uintb], so the count is held modulo 2^64. *)
Definition getSize (r : CircleRange) : Z :=
  if isempty r then 0 else to_uintb (cardinality r).

(** ** ValueSet, Partition and the solver's partition lists *)

(** An address of an object in [Memory]; a pointer is an address or null. *)
Definition addr : Type := positive.
Definition ptr : Type := option addr.

(** [OpCode] is declared in op.hh, outside this header: an enumerator is
    kept as its integer code. *)
Definition OpCode : Type := Z.

Record Equation : Type := mkEquation {
  Equation_slot : Z;
  Equation_range : CircleRange
}.

Record ValueSet : Type := mkValueSet {
  typeCode : Z;                (* 0=pure constant 1=stack relative *)
  vn : ptr;                    (* Varnode whose set this represents *)
  opCode : OpCode;             (* op-code defining Varnode *)
  numParams : Z;               (* number of input parameters *)
  range : CircleRange;         (* range of values or offsets in this set *)
  count : Z;                   (* depth first numbering / widening count *)
  equations : list Equation;   (* equations associated with this value set *)
  partHead : ptr;              (* Partition this node heads, or null *)
  next : ptr                   (* next ValueSet to iterate *)
}.

Record Partition : Type := mkPartition {
  startNode : ptr;             (* starting node of component *)
  stopNode : ptr;              (* ending node of component *)
  isDirty : bool
}.

(** [Partition(void)]: the empty partition. *)
Definition Partition_new : Partition :=
  {| startNode := None; stopNode := None; isDirty := false |}.

Definition set_next (vs : ValueSet) (p : ptr) : ValueSet :=
  {| typeCode := typeCode vs; vn := vn vs; opCode := opCode vs;
     numParams := numParams vs; range := range vs; count := count vs;
     equations := equations vs; partHead := partHead vs; next := p |}.

Definition set_startNode (pt : Partition) (p : ptr) : Partition :=
  {| startNode := p; stopNode := stopNode pt; isDirty := isDirty pt |}.

Definition set_stopNode (pt : Partition) (p : ptr) : Partition :=
  {| startNode := startNode pt; stopNode := p; isDirty := isDirty pt |}.

Record Memory : Type := mkMemory {
  valueSets : gmap addr ValueSet;
  partitions : gmap addr Partition
}.

(** Commands over [Memory]: a result and the memory after, or nothing when
    the command dereferences a null or dangling pointer. *)
Definition exec (A : Type) : Type := Memory -> option (A * Memory).

Definition ret {A : Type} (a : A) : exec A := fun m => Some (a, m).

Definition bind {A B : Type} (c : exec A) (k : A -> exec B) : exec B :=
  fun m => match c m with
           | Some (a, m') => k a m'
           | None => None
           end.

Notation "x <~ c ;; k" := (bind c (fun x => k))
  (at level 100, c at next level, right associativity).
Notation "c ;;; k" := (bind c (fun _ => k))
  (at level 100, right associativity).

(** Read the Partition a reference denotes. *)
Definition load_part (part : addr) : exec Partition :=
  fun m => match partitions m !! part with
           | Some pt => Some (pt, m)
           | None => None
           end.

(** Write the Partition a reference denotes. *)
Definition store_part (part : addr) (pt : Partition) : exec unit :=
  fun m => match partitions m !! part with
           | Some _ => Some (tt, {| valueSets := valueSets m;
                                    partitions := <[part := pt]> (partitions m) |})
           | None => None
           end.

(** [p->next = q]. *)
Definition store_next (p : ptr) (q : ptr) : exec unit :=
  fun m => match p with
           | Some a =>
               match valueSets m !! a with
               | Some vs => Some (tt, {| valueSets := <[a := set_next vs q]> (valueSets m);
                                         partitions := partitions m |})
               | None => None
               end
           | None => None
           end.

Module ValueSetSolver.

(** [partitionPrepend(ValueSet *vertex, Partition &part)] *)
Definition partitionPrepend (vertex : ptr) (part : addr) : exec unit :=
  pt <~ load_part part ;;
  store_next vertex (startNode pt) ;;;
  pt <~ load_part part ;;
  store_part part (set_startNode pt vertex) ;;;
  pt <~ load_part part ;;
  match stopNode pt with
  | None => store_part part (set_stopNode pt vertex)
  | Some _ => ret tt
  end.

(** [partitionPrepend(const Partition &head, Partition &part)].  Both
    arguments are references, so [head] and [part] may name one object:
    every field is read from memory at the point the source reads it. *)
Definition partitionPrepend_head (head : addr) (part : addr) : exec unit :=
  h <~ load_part head ;;
  pt <~ load_part part ;;
  store_next (stopNode h) (startNode pt) ;;;
  h <~ load_part head ;;
  pt <~ load_part part ;;
  store_part part (set_startNode pt (startNode h)) ;;;
  pt <~ load_part part ;;
  match stopNode pt with
  | None => h <~ load_part head ;; store_part part (set_stopNode pt (stopNode h))
  | Some _ => ret tt
  end.

End ValueSetSolver.

(** The nodes threaded by [next] from [p]: [chain vsm p l q] says that
    following [next] from [p] visits exactly the addresses [l] and then
    arrives at [q]. *)
Fixpoint chain (vsm : gmap addr ValueSet) (p : ptr) (l : list addr) (q : ptr) : Prop :=
  match l with
  | [] => p = q
  | a :: l' => p = Some a /\ exists vs, vsm !! a = Some vs /\ chain vsm (next vs) l' q
  end.

(** A Partition holds the list [l], continued by [q]: its [startNode]
    begins the chain and its [stopNode] is the last node (null when the
    list is empty). *)
Definition holds (vsm : gmap addr ValueSet) (pt : Partition) (l : list addr) (q : ptr) : Prop :=
  chain vsm (startNode pt) l q /\ stopNode pt = last l.

(** ** The specification's wording and sample data *)

(** The six-bit relation vector (l<=r, l<=l', l<=r', r<=l', r<=r', l'<=r')
    of the specification, first comparison in the most significant bit. *)
Definition relationVector (l r l' r' : Z) : Z :=
  32 * Z.b2z (l <=? r) + 16 * Z.b2z (l <=? l') + 8 * Z.b2z (l <=? r')
  + 4 * Z.b2z (r <=? l') + 2 * Z.b2z (r <=? r') + Z.b2z (l' <=? r').

(** A 64-entry table for the examples (the initialiser of [arrange] is
    outside the header); entry 59 is the category b of the specification's
    overlap scenario. *)
Definition sample_arrange : list ascii :=
  ["g"; "c"; "g"; "b"; "e"; "g"; "d"; "a";
   "g"; "g"; "g"; "g"; "g"; "g"; "g"; "e";
   "g"; "g"; "g"; "g"; "c"; "g"; "b"; "g";
   "g"; "g"; "g"; "g"; "g"; "g"; "g"; "c";
   "d"; "f"; "g"; "g"; "g"; "g"; "g"; "g";
   "g"; "e"; "g"; "d"; "g"; "g"; "g"; "g";
   "b"; "g"; "g"; "g"; "f"; "g"; "g"; "g";
   "g"; "c"; "g"; "b"; "e"; "g"; "d"; "a"]%char.

(** [2, 10) by steps of 2 over four bits: the values 2, 4, 6, 8. *)
Definition sample_range : CircleRange :=
  {| left := 2; right := 10; mask := 15; isempty := false; step := 2 |}.

(** A range that wraps: [12, 4) over four bits, the values 12 .. 15, 0 .. 3. *)
Definition sample_wrapped : CircleRange :=
  {| left := 12; right := 4; mask := 15; isempty := false; step := 1 |}.

(** The full range over one byte. *)
Definition sample_full : CircleRange :=
  {| left := 0; right := 0; mask := 255; isempty := false; step := 1 |}.

(** The full range over eight bytes: every [uintb] value. *)
Definition full64 : CircleRange :=
  {| left := 0; right := 0; mask := 2 ^ 64 - 1; isempty := false; step := 1 |}.

(** An emptied range: [isempty] is set, the other fields keep whatever
    they held ([0, 2) over four bytes here). *)
Definition sample_empty : CircleRange :=
  {| left := 0; right := 2; mask := 2 ^ 32 - 1; isempty := true; step := 1 |}.

(** A second empty range with other leftovers in its fields. *)
Definition sample_empty' : CircleRange :=
  {| left := 7; right := 3; mask := 255; isempty := true; step := 4 |}.

(** A node with the given successor, for the examples. *)
Definition sample_node (nxt : ptr) : ValueSet :=
  {| typeCode := 0; vn := None; opCode := 0; numParams := 0;
     range := sample_range; count := 0; equations := [];
     partHead := None; next := nxt |}.

(** Nodes 1 -> 2 held by partition 10, node 3 held by partition 11, a
    free node 4 and an empty partition 12. *)
Definition sample_memory : Memory :=
  {| valueSets :=
       <[1%positive := sample_node (Some 2%positive)]>
       (<[2%positive := sample_node None]>
       (<[3%positive := sample_node None]>
       (<[4%positive := sample_node None]> ∅)));
     partitions :=
       <[10%positive := {| startNode := Some 1%positive;
                           stopNode := Some 2%positive; isDirty := false |}]>
       (<[11%positive := {| startNode := Some 3%positive;
                            stopNode := Some 3%positive; isDirty := true |}]>
       (<[12%positive := Partition_new]> ∅)) |}.

(** The indices of [arrange] that some choice of boundaries reads. *)
Definition reachableIndices : list Z :=
  [0; 1; 3; 4; 6; 7; 11; 15; 20; 22; 30; 31;
   32; 33; 41; 43; 48; 52; 56; 57; 59; 60; 62; 63].

(** Boundaries taken from 0 .. 3: every relative order of four boundaries
    occurs among them. *)
Definition smallBoundaries : list (Z * Z * Z * Z) :=
  l ← [0; 1; 2; 3]; r ← [0; 1; 2; 3]; l' ← [0; 1; 2; 3]; r' ← [0; 1; 2; 3];
  [(l, r, l', r')].

(** The calls [partitionPrepend(v, part)] for the vertices [vs], first to
    last. *)
Fixpoint partitionPrepend_each (vs : list addr) (part : addr) : exec unit :=
  match vs with
  | [] => ret tt
  | v :: vs' =>
      ValueSetSolver.partitionPrepend (Some v) part ;;;
      partitionPrepend_each vs' part
  end.

(** [x < 2] and [5 <= x] over four bytes, the two ranges of the class
    comment. *)
Definition below_two : CircleRange :=
  {| left := 0; right := 2; mask := 2 ^ 32 - 1; isempty := false; step := 1 |}.

Definition from_five : CircleRange :=
  {| left := 5; right := 0; mask := 2 ^ 32 - 1; isempty := false; step := 1 |}.

(** The same loop, reporting also what happened when the bound is
    reached: the values the body saw in at most [fuel] runs, in order, and
    whether the loop stopped within the bound. *)
Fixpoint iterate_trace (fuel : nat) (r : CircleRange) (val : Z) : list Z * bool :=
  match fuel with
  | O => ([], false)
  | S fuel' =>
      let '(more, val') := getNext r val in
      if more then
        let '(vals, stopped) := iterate_trace fuel' r val' in
        (val :: vals, stopped)
      else ([val], true)
  end.

(** An empty range as [CircleRange(void)] may leave it: only [isempty] is
    set, and [mask] holds a value that is not of the form 2^n - 1. *)
Definition unset_range : CircleRange :=
  {| left := 0; right := 0; mask := 254; isempty := true; step := 2 |}.

(** An emptied range on which the protocol does not stop: its leftovers
    are [left = 0], [right = 3], steps of 2 over four bits. *)
Definition sample_empty_odd : CircleRange :=
  {| left := 0; right := 3; mask := 15; isempty := true; step := 2 |}.

(** * Properties *)

(** ** Masks and wrap-around *)

Lemma is_mask_pow (m : Z) :
  is_mask m = true -> exists n, 0 <= n <= 64 /\ m + 1 = 2 ^ n.
Proof.
  unfold is_mask, uintb_modulus. rewrite !andb_true_iff.
  intros [[H0 H1] H2].
  apply Z.leb_le in H0. apply Z.ltb_lt in H1. apply Z.eqb_eq in H2.
  exists (Z.log2 (m + 1)). split; [split|]; trivial.
  - apply Z.log2_nonneg.
  - apply (Z.pow_le_mono_r_iff 2); lia.
Qed.

Lemma is_mask_pos (m : Z) : is_mask m = true -> 0 < m + 1.
Proof.
  unfold is_mask. rewrite !andb_true_iff. intros [[H0 _] _].
  apply Z.leb_le in H0. lia.
Qed.

Lemma land_mask (x m : Z) :
  is_mask m = true -> Z.land x m = x mod (m + 1).
Proof.
  intros Hm. destruct (is_mask_pow m Hm) as (n & [Hn _] & Hp).
  replace m with (Z.ones n) at 1 by (rewrite Z.ones_equiv; lia).
  rewrite Z.land_ones by assumption. now rewrite Hp.
Qed.

Lemma mask_divides_modulus (m : Z) :
  is_mask m = true -> (m + 1 | uintb_modulus).
Proof.
  intros Hm. destruct (is_mask_pow m Hm) as (n & [Hn Hn'] & Hp).
  exists (2 ^ (64 - n)). rewrite Hp, <- Z.pow_add_r by lia.
  unfold uintb_modulus. f_equal. lia.
Qed.

Lemma land_to_uintb (x m : Z) :
  is_mask m = true -> Z.land (to_uintb x) m = x mod (m + 1).
Proof.
  intros Hm. rewrite land_mask by assumption. unfold to_uintb.
  apply Z.mod_mod_divide, mask_divides_modulus, Hm.
Qed.

Lemma uintb_add_int4 (a s : Z) : uintb_add a (uintb_of_int4 s) = to_uintb (a + s).
Proof.
  unfold uintb_add, uintb_of_int4, to_uintb. apply Zplus_mod_idemp_r.
Qed.

Lemma uintb_sub_int4 (a s : Z) : uintb_sub a (uintb_of_int4 s) = to_uintb (a - s).
Proof.
  unfold uintb_sub, uintb_of_int4, to_uintb. apply Zminus_mod_idemp_r.
Qed.

(** [getNext] is one [advance] and a comparison with [right]. *)
Lemma getNext_advance (r : CircleRange) (val : Z) :
  is_mask (mask r) = true ->
  getNext r val = (negb (advance r val =? right r), advance r val).
Proof.
  intros Hm. unfold getNext, advance.
  now rewrite uintb_add_int4, land_to_uintb.
Qed.

(** ** The do-while loop *)

Lemma visited_S (r : CircleRange) (val : Z) (j : nat) :
  visited r val (S j) = visited r (advance r val) j.
Proof.
  unfold visited. induction j as [|j IH]; simpl in *; [reflexivity|].
  now rewrite IH.
Qed.

Lemma visited_seq (r : CircleRange) (val : Z) (n : nat) :
  map (visited r val) (seq 0 (S n))
  = val :: map (visited r (advance r val)) (seq 0 n).
Proof.
  change (seq 0 (S n)) with (0%nat :: seq 1 n).
  rewrite <- seq_shift, map_cons, map_map. f_equal.
  apply map_ext. intros j. apply visited_S.
Qed.

(** If the first return to [right] happens at step [k + 1], the loop stops
    there, for any fuel above [k], having seen the [k + 1] values before. *)
Lemma iterate_from_reaches (r : CircleRange) :
  is_mask (mask r) = true ->
  forall (k : nat) (val : Z) (fuel : nat),
    (forall j, (1 <= j <= k)%nat -> visited r val j <> right r) ->
    visited r val (S k) = right r ->
    (k < fuel)%nat ->
    iterate_from fuel r val = Some (map (visited r val) (seq 0 (S k))).
Proof.
  intros Hm. induction k as [|k IH]; intros val fuel Hne Hk Hf.
  - destruct fuel as [|fuel]; [lia|]. cbn [iterate_from].
    rewrite getNext_advance by assumption.
    change (visited r val 1) with (advance r val) in Hk.
    rewrite Hk, Z.eqb_refl. reflexivity.
  - destruct fuel as [|fuel]; [lia|].
    cbn [iterate_from]. rewrite getNext_advance by assumption.
    assert (Hfirst : advance r val <> right r) by (apply (Hne 1%nat); lia).
    apply Z.eqb_neq in Hfirst. rewrite Hfirst. cbn [negb].
    rewrite (IH (advance r val) fuel).
    + now rewrite (visited_seq r val (S k)).
    + intros j Hj. rewrite <- visited_S. apply Hne. lia.
    + now rewrite <- visited_S.
    + lia.
Qed.

(** Conversely, a loop that stops after [k + 1] runs of the body reached
    [right] at step [k + 1] and not before. *)
Lemma iterate_from_stops (r : CircleRange) :
  is_mask (mask r) = true ->
  forall (fuel : nat) (val : Z) (vals : list Z),
    iterate_from fuel r val = Some vals ->
    exists k : nat,
      length vals = S k /\ (k < fuel)%nat /\
      vals = map (visited r val) (seq 0 (S k)) /\
      visited r val (S k) = right r /\
      (forall j, (1 <= j <= k)%nat -> visited r val j <> right r).
Proof.
  intros Hm. induction fuel as [|fuel IH]; intros val vals Hrun; [discriminate|].
  cbn [iterate_from] in Hrun. rewrite getNext_advance in Hrun by assumption.
  destruct (Z.eqb_spec (advance r val) (right r)) as [E|E]; cbn [negb] in Hrun.
  - injection Hrun as <-. exists 0%nat. repeat split; try lia.
    + exact E.
  - destruct (iterate_from fuel r (advance r val)) as [vals'|] eqn:Hrec;
      [|discriminate].
    injection Hrun as <-.
    destruct (IH _ _ Hrec) as (k & Hlen & Hlt & Hvals & Hk & Hne).
    exists (S k). repeat split.
    + simpl. now rewrite Hlen.
    + lia.
    + now rewrite Hvals, (visited_seq r val (S k)).
    + now rewrite visited_S.
    + intros j Hj. destruct j as [|j]; [lia|].
      rewrite visited_S. destruct j as [|j]; [exact E|]. apply Hne. lia.
Qed.

(** More fuel does not change the outcome of a loop that stopped. *)
Lemma iterate_from_fuel_mono (r : CircleRange) (fuel fuel' : nat) (val : Z)
    (vals : list Z) :
  iterate_from fuel r val = Some vals -> (fuel <= fuel')%nat ->
  iterate_from fuel' r val = Some vals.
Proof.
  revert fuel' val vals.
  induction fuel as [|fuel IH]; intros fuel' val vals Hrun Hle; [discriminate|].
  destruct fuel' as [|fuel']; [lia|].
  cbn [iterate_from] in *. destruct (getNext r val) as [more val'].
  destruct more; [|exact Hrun].
  destruct (iterate_from fuel r val') as [vals'|] eqn:Hrec; [|discriminate].
  rewrite (IH fuel' val' vals' Hrec) by lia. exact Hrun.
Qed.

Lemma getSize_uintb (r : CircleRange) : 0 <= getSize r < uintb_modulus.
Proof.
  unfold getSize, to_uintb, uintb_modulus. destruct (isempty r); [lia|].
  apply Z.mod_pos_bound. lia.
Qed.

(** ** getNext and the termination test *)

(** C1, as the code has it.  Under the class invariant [mask = 2^n - 1],
    which [CircleRange(void)] does not establish, [getNext] replaces
    [val] by [(val + step) mod (mask + 1)] and returns [true] exactly when
    the new value differs from [right]; hence the protocol started at
    [getMin()] stops after [k + 1] runs of the body exactly when step
    [k + 1] is the first to land on [right]. *)
Theorem getNext_protocol (r : CircleRange) (val : Z) :
  is_mask (mask r) = true ->
  snd (getNext r val) = (val + step r) mod (mask r + 1)
  /\ (fst (getNext r val) = true <-> (val + step r) mod (mask r + 1) <> right r)
  /\ forall k : nat,
       (exists fuel vals, iterate fuel r = Some vals /\ length vals = S k)
       <-> (visited r (getMin r) (S k) = right r
            /\ forall j, (1 <= j <= k)%nat -> visited r (getMin r) j <> right r).
Proof.
  intros Hm. rewrite getNext_advance by assumption. cbn [fst snd].
  fold (advance r val). split; [reflexivity|]. split.
  - rewrite negb_true_iff. apply Z.eqb_neq.
  - intros k. split.
    + intros (fuel & vals & Hrun & Hlen).
      destruct (iterate_from_stops r Hm _ _ _ Hrun)
        as (k' & Hlen' & _ & _ & Hk & Hne).
      assert (k' = k) as -> by congruence. now split.
    + intros [Hk Hne]. exists (S k), (map (visited r (getMin r)) (seq 0 (S k))).
      split.
      * apply iterate_from_reaches; auto.
      * now rewrite length_map, length_seq.
Qed.

Lemma getNext_protocol_witness :
  snd (getNext sample_range 8) = 10 /\ snd (getNext sample_wrapped 15) = 0.
Proof.
  split.
  - rewrite (proj1 (getNext_protocol sample_range 8 eq_refl)). reflexivity.
  - rewrite (proj1 (getNext_protocol sample_wrapped 15 eq_refl)). reflexivity.
Defined.

(** With a mask that is not of the form 2^n - 1 the bitwise and is not a
    remainder: at mask 0xFE, step 2 and val 254 the code stores 0 where
    [(val + step) mod (mask + 1)] is 1. *)
Lemma getNext_unset_mask :
  isempty unset_range = true
  /\ is_mask (mask unset_range) = false
  /\ snd (getNext unset_range 254) = 0
  /\ (254 + step unset_range) mod (mask unset_range + 1) = 1
  /\ (snd (getNext unset_range 254)
        =? (254 + step unset_range) mod (mask unset_range + 1)) = false.
Proof. repeat split; reflexivity. Qed.

(** ** The overlap code *)

(** C2. [encodeRangeOverlaps] reads [arrange] at the six-bit relation
    vector: the index is below 64, bit 5 (0x20) is [l <= r], bit 4 is
    [l <= l'], bit 3 is [l <= r'], bit 2 is [r <= l'], bit 1 is [r <= r']
    and bit 0 is [l' <= r']; with a table of 64 entries the read is inside
    the table. *)
Theorem encodeRangeOverlaps_index (arrange : list ascii) (l r l' r' : Z) :
  encodeRangeOverlaps arrange l r l' r'
    = nth (Z.to_nat (relationVector l r l' r')) arrange "000"%char
  /\ 0 <= relationVector l r l' r' < 64
  /\ Z.testbit (relationVector l r l' r') 5 = (l <=? r)
  /\ Z.testbit (relationVector l r l' r') 4 = (l <=? l')
  /\ Z.testbit (relationVector l r l' r') 3 = (l <=? r')
  /\ Z.testbit (relationVector l r l' r') 2 = (r <=? l')
  /\ Z.testbit (relationVector l r l' r') 1 = (r <=? r')
  /\ Z.testbit (relationVector l r l' r') 0 = (l' <=? r')
  /\ (length arrange = 64%nat ->
      arrange !! Z.to_nat (relationVector l r l' r')
        = Some (encodeRangeOverlaps arrange l r l' r')).
Proof.
  assert (Hidx : encodeRangeOverlaps arrange l r l' r'
            = nth (Z.to_nat (relationVector l r l' r')) arrange "000"%char
          /\ 0 <= relationVector l r l' r' < 64).
  { unfold encodeRangeOverlaps, relationVector.
    destruct (l <=? r), (l <=? l'), (l <=? r'), (r <=? l'), (r <=? r'),
      (l' <=? r'); (split; [reflexivity | cbn; lia]). }
  destruct Hidx as [Hres Hrange].
  split; [exact Hres|]. split; [exact Hrange|].
  repeat (split; [unfold relationVector;
    destruct (l <=? r), (l <=? l'), (l <=? r'), (r <=? l'), (r <=? r'),
      (l' <=? r'); reflexivity|]).
  intros Hlen. rewrite Hres.
  destruct (nth_lookup_or_length arrange
              (Z.to_nat (relationVector l r l' r')) "000"%char) as [H|H].
  - exact H.
  - lia.
Qed.

Lemma encodeRangeOverlaps_index_witness :
  sample_arrange !! 59%nat = Some (encodeRangeOverlaps sample_arrange 2 8 5 12)
  /\ encodeRangeOverlaps sample_arrange 2 8 5 12 = "b"%char.
Proof.
  split; [|reflexivity].
  apply (encodeRangeOverlaps_index sample_arrange 2 8 5 12). reflexivity.
Defined.

(** ** Predicates on a range *)

(** C5. [isFull] holds exactly for a non-empty range with [step = 1] and
    [left = right]. *)
Theorem isFull_iff (r : CircleRange) :
  isFull r = true <-> isempty r = false /\ step r = 1 /\ left r = right r.
Proof.
  unfold isFull. rewrite !andb_true_iff, negb_true_iff, !Z.eqb_eq. tauto.
Qed.

Lemma land_uintb_mask (x m : Z) :
  0 <= m < uintb_modulus -> Z.land (to_uintb x) m = Z.land x m.
Proof.
  intros Hm. unfold to_uintb, uintb_modulus in *.
  rewrite <- (Z.land_ones x 64), <- Z.land_assoc by lia.
  f_equal. rewrite Z.land_comm, Z.land_ones by lia.
  apply Z.mod_small. lia.
Qed.

(** C6. [isSingle] holds exactly for a non-empty range with
    [right = (left + step) & mask]: as the code computes it in [uintb]
    arithmetic, and, the mask being a [uintb], on the integers as well. *)
Theorem isSingle_iff (r : CircleRange) :
  (isSingle r = true <->
     isempty r = false
     /\ right r = Z.land (uintb_add (left r) (uintb_of_int4 (step r))) (mask r))
  /\ (0 <= mask r < uintb_modulus ->
      (isSingle r = true <->
         isempty r = false /\ right r = Z.land (left r + step r) (mask r))).
Proof.
  unfold isSingle. split.
  - now rewrite andb_true_iff, negb_true_iff, Z.eqb_eq.
  - intros Hm.
    rewrite uintb_add_int4, land_uintb_mask by assumption.
    now rewrite andb_true_iff, negb_true_iff, Z.eqb_eq.
Qed.

Lemma isSingle_iff_witness :
  isSingle (mkCircleRange 14 0 15 false 2) = true.
Proof.
  apply (proj2 (isSingle_iff (mkCircleRange 14 0 15 false 2))).
  - unfold uintb_modulus. cbn. lia.
  - split; reflexivity.
Defined.

(** C8. [operator==]: two empty ranges are equal whatever their other
    fields hold, an empty and a non-empty range differ, and two non-empty
    ranges are equal exactly when [left], [right], [mask] and [step]
    agree. *)
Theorem operator_eq_spec (A B : CircleRange) :
  (isempty A = true -> isempty B = true -> operator_eq A B = true)
  /\ (isempty A <> isempty B -> operator_eq A B = false)
  /\ (isempty A = false -> isempty B = false ->
      (operator_eq A B = true <->
         left A = left B /\ right A = right B
         /\ mask A = mask B /\ step A = step B)).
Proof.
  unfold operator_eq. repeat split.
  - intros -> ->. reflexivity.
  - destruct (isempty A), (isempty B); intros H; try reflexivity; now elim H.
  - rewrite H, H0 in H1. cbn in H1. rewrite !andb_true_iff, !Z.eqb_eq in H1. tauto.
  - rewrite H, H0 in H1. cbn in H1. rewrite !andb_true_iff, !Z.eqb_eq in H1. tauto.
  - rewrite H, H0 in H1. cbn in H1. rewrite !andb_true_iff, !Z.eqb_eq in H1. tauto.
  - rewrite H, H0 in H1. cbn in H1. rewrite !andb_true_iff, !Z.eqb_eq in H1. tauto.
  - intros (? & ? & ? & ?). rewrite H, H0. cbn.
    rewrite !andb_true_iff, !Z.eqb_eq. tauto.
Qed.

Lemma operator_eq_spec_witness :
  operator_eq sample_empty sample_empty' = true
  /\ operator_eq sample_empty sample_range = false.
Proof.
  split.
  - apply (proj1 (operator_eq_spec sample_empty sample_empty')); reflexivity.
  - apply (proj1 (proj2 (operator_eq_spec sample_empty sample_range))).
    discriminate.
Defined.

(** ** Iterating a valid range *)

Lemma is_step_facts (m s : Z) :
  is_mask m = true -> is_step m s = true -> 0 < s /\ (s | m + 1).
Proof.
  intros Hm. unfold is_step. rewrite !andb_true_iff.
  intros [[[H0 _] H2] H3].
  apply Z.ltb_lt in H0. apply Z.eqb_eq in H2. apply Z.leb_le in H3.
  split; [assumption|].
  destruct (is_mask_pow m Hm) as (n & [Hn _] & Hp).
  assert (Ha : 0 <= Z.log2 s) by apply Z.log2_nonneg.
  assert (Hle : Z.log2 s <= n).
  { apply (Z.pow_le_mono_r_iff 2); lia. }
  set (a := Z.log2 s) in *.
  assert (Hsplit : 2 ^ n = 2 ^ (n - a) * 2 ^ a).
  { rewrite <- Z.pow_add_r by lia. f_equal. lia. }
  exists (2 ^ (n - a)). rewrite Hp, Hsplit. now rewrite <- H2.
Qed.

Lemma valid_facts (r : CircleRange) :
  valid r = true ->
  is_mask (mask r) = true /\ 0 < step r /\ (step r | mask r + 1)
  /\ 0 <= left r <= mask r /\ 0 <= right r <= mask r
  /\ ((right r - left r) mod (mask r + 1)) mod step r = 0.
Proof.
  unfold valid. rewrite !andb_true_iff.
  intros [[[[[[Hm Hs] Hl0] Hl1] Hr0] Hr1] Hd].
  destruct (is_step_facts _ _ Hm Hs) as [Hpos Hdiv].
  apply Z.leb_le in Hl0, Hl1, Hr0, Hr1. apply Z.eqb_eq in Hd.
  repeat split; assumption.
Qed.

(** The circular distance from [left] to [right] is [cardinality] steps,
    and no smaller positive number of steps bridges it. *)
Lemma cardinality_span (r : CircleRange) :
  valid r = true ->
  0 < cardinality r
  /\ cardinality r * step r <= mask r + 1
  /\ (cardinality r * step r) mod (mask r + 1)
     = (right r - left r) mod (mask r + 1)
  /\ forall j, 0 < j < cardinality r ->
       (j * step r) mod (mask r + 1) <> (right r - left r) mod (mask r + 1).
Proof.
  intros Hv.
  destruct (valid_facts r Hv) as (Hm & Hs & [q Hq] & Hl & Hr & Hd).
  unfold cardinality.
  set (M := mask r + 1) in *. set (s := step r) in *.
  assert (HM : 0 < M) by (apply is_mask_pos; assumption).
  destruct (Z.ltb_spec (left r) (right r)) as [Hlt|Hge].
  - rewrite (Z.mod_small (right r - left r) M) in * by lia.
    assert (Hc : right r - left r = s * ((right r - left r) / s))
      by (apply Z_div_exact_full_2; lia).
    set (c := (right r - left r) / s) in *.
    assert (0 < c) by nia.
    repeat split; try nia.
    + rewrite Z.mod_small by nia. nia.
    + intros j Hj. rewrite Z.mod_small by nia. nia.
  - assert (Hmod : (right r - left r) mod M
                   = if left r =? right r then 0 else M - (left r - right r)).
    { destruct (Z.eqb_spec (left r) (right r)) as [E|E].
      - rewrite E, Z.sub_diag. apply Z.mod_0_l. lia.
      - rewrite <- (Z_mod_plus_full (right r - left r) 1 M).
        rewrite Z.mod_small by lia. lia. }
    assert (Hdiv : (M - (left r - right r)) mod s = 0).
    { destruct (Z.eqb_spec (left r) (right r)) as [E|E].
      - rewrite E, Z.sub_diag, Z.sub_0_r. apply Z.mod0_divide. now exists q.
      - now rewrite <- Hmod. }
    assert (Hc : M - (left r - right r) = s * ((M - (left r - right r)) / s))
      by (apply Z_div_exact_full_2; lia).
    set (c := (M - (left r - right r)) / s) in *.
    assert (0 < c) by nia.
    repeat split; try nia.
    + rewrite Hmod. destruct (Z.eqb_spec (left r) (right r)) as [E|E].
      * replace (c * s) with M by nia. apply Z.mod_same. lia.
      * rewrite Z.mod_small by nia. nia.
    + intros j Hj. rewrite Hmod, Z.mod_small by nia.
      destruct (Z.eqb_spec (left r) (right r)); nia.
Qed.

Lemma visited_left (r : CircleRange) (j : nat) :
  valid r = true ->
  visited r (left r) j = (left r + Z.of_nat j * step r) mod (mask r + 1).
Proof.
  intros Hv. destruct (valid_facts r Hv) as (Hm & _ & _ & Hl & _).
  induction j as [|j IH].
  - cbn. rewrite Z.add_0_r. symmetry. apply Z.mod_small. lia.
  - change (visited r (left r) (S j)) with (advance r (visited r (left r) j)).
    rewrite IH. unfold advance. rewrite Zplus_mod_idemp_l. f_equal. lia.
Qed.

Lemma reach_iff (M a b x : Z) :
  0 <= b < M -> ((a + x) mod M = b <-> x mod M = (b - a) mod M).
Proof.
  intros Hb. split; intros H.
  - rewrite <- H, Zminus_mod_idemp_l. f_equal. lia.
  - rewrite <- Zplus_mod_idemp_r, H, Zplus_mod_idemp_r.
    replace (a + (b - a)) with b by lia. apply Z.mod_small. lia.
Qed.

(** The run of the protocol over a valid range: it stops, after
    [cardinality] runs of the body, on the values [left + j * step]. *)
Lemma iterate_valid (r : CircleRange) :
  valid r = true ->
  iterate (Z.to_nat (cardinality r)) r
  = Some (map (visited r (left r)) (seq 0 (Z.to_nat (cardinality r)))).
Proof.
  intros Hv.
  destruct (valid_facts r Hv) as (Hm & Hs & _ & Hl & Hr & _).
  destruct (cardinality_span r Hv) as (Hc & _ & Hreach & Hfirst).
  assert (Hk : Z.to_nat (cardinality r) = S (Z.to_nat (cardinality r) - 1)) by lia.
  rewrite Hk at 2. unfold iterate, getMin.
  apply iterate_from_reaches; [assumption| | |lia].
  - intros j Hj. rewrite visited_left by assumption.
    rewrite reach_iff by lia. apply Hfirst. lia.
  - rewrite <- Hk, visited_left by assumption.
    rewrite reach_iff by lia. rewrite Z2Nat.id by lia. exact Hreach.
Qed.

Lemma visited_distinct (r : CircleRange) (i j : nat) :
  valid r = true ->
  (i < j)%nat -> Z.of_nat j < cardinality r ->
  visited r (left r) i <> visited r (left r) j.
Proof.
  intros Hv Hij Hj. rewrite !visited_left by assumption.
  destruct (valid_facts r Hv) as (Hm & Hs & _).
  destruct (cardinality_span r Hv) as (Hc & Hle & _).
  assert (HM : 0 < mask r + 1) by (apply is_mask_pos; assumption).
  intros E. symmetry in E. apply reach_iff in E.
  - rewrite Zminus_mod_idemp_l in E.
    replace (left r + Z.of_nat i * step r - left r)
      with (Z.of_nat i * step r) in E by lia.
    rewrite !Z.mod_small in E by nia. nia.
  - apply Z.mod_pos_bound. lia.
Qed.

Lemma visited_NoDup (r : CircleRange) :
  valid r = true ->
  NoDup (map (visited r (left r)) (seq 0 (Z.to_nat (cardinality r)))).
Proof.
  intros Hv.
  change (NoDup (visited r (left r) <$> seq 0 (Z.to_nat (cardinality r)))).
  apply NoDup_fmap_2_strong; [|apply NoDup_seq].
  intros i j Hi Hj E. apply elem_of_seq in Hi, Hj.
  destruct (Nat.lt_trichotomy i j) as [Hlt|[Heq|Hgt]]; [|assumption|].
  - exfalso. apply (visited_distinct r i j Hv Hlt); [lia|assumption].
  - exfalso. apply (visited_distinct r j i Hv Hgt); [lia|now symmetry].
Qed.

Lemma getMax_step (r : CircleRange) :
  is_mask (mask r) = true -> 0 <= right r <= mask r ->
  (getMax r + step r) mod (mask r + 1) = right r.
Proof.
  intros Hm Hr. unfold getMax.
  rewrite uintb_sub_int4, land_to_uintb by assumption.
  rewrite Zplus_mod_idemp_l.
  replace (right r - step r + step r) with (right r) by lia.
  apply Z.mod_small. lia.
Qed.

(** The values the protocol visits are the members of the range, as the
    data model describes them: the count of the visit is the number of
    elements of the set. *)
Lemma visited_member (r : CircleRange) (v : Z) :
  valid r = true -> isempty r = false ->
  (exists j : nat, Z.of_nat j < cardinality r /\ v = visited r (left r) j)
  <-> member r v.
Proof.
  intros Hv Hne.
  destruct (valid_facts r Hv) as (Hm & Hs & [q Hq] & Hl & Hr & Hd).
  assert (HM : 0 < mask r + 1) by (apply is_mask_pos; assumption).
  assert (Hspan : cardinality r * step r
                  = if left r <? right r then right r - left r
                    else mask r + 1 - (left r - right r)).
  { destruct (cardinality_span r Hv) as (Hc & Hle & Hreach & _).
    destruct (Z.ltb_spec (left r) (right r)) as [Hlt|Hge].
    - rewrite (Z.mod_small (right r - left r)) in Hreach by lia.
      destruct (Z.eq_dec (cardinality r * step r) (mask r + 1)) as [E'|E'].
      + rewrite E', Z.mod_same in Hreach by lia. lia.
      + rewrite Z.mod_small in Hreach by nia. exact Hreach.
    - destruct (Z.eq_dec (left r) (right r)) as [E|E].
      + rewrite E, Z.sub_diag, Z.mod_0_l in Hreach by lia.
        apply Z.mod_divide in Hreach; [|lia]. destruct Hreach as [t Ht].
        assert (0 < cardinality r * step r) by nia.
        assert (0 < t) by nia. assert (t < 2) by nia.
        assert (t = 1) by lia. subst t. lia.
      + rewrite <- (Z_mod_plus_full (right r - left r) 1) in Hreach.
        rewrite (Z.mod_small (right r - left r + _)) in Hreach by lia.
        destruct (Z.eq_dec (cardinality r * step r) (mask r + 1)) as [E'|E'].
        * rewrite E', Z.mod_same in Hreach by lia. lia.
        * rewrite Z.mod_small in Hreach by nia. lia. }
  unfold member. split.
  - intros (j & Hj & ->). rewrite visited_left by assumption.
    set (x := left r + Z.of_nat j * step r).
    assert (Hx : x = (mask r + 1) * (x / (mask r + 1)) + x mod (mask r + 1))
      by (apply Z.div_mod; lia).
    assert (Hb : 0 <= x mod (mask r + 1) < mask r + 1)
      by (apply Z.mod_pos_bound; lia).
    assert (Hjs : 0 <= Z.of_nat j * step r < cardinality r * step r) by nia.
    split; [assumption|]. split; [lia|]. split.
    + apply Z.mod0_divide.
      exists (Z.of_nat j - q * (x / (mask r + 1))). unfold x in *. nia.
    + destruct (Z.ltb_spec (left r) (right r)) as [Hlt|Hge].
      * rewrite Z.mod_small by (unfold x; lia). unfold x. lia.
      * destruct (Z_lt_ge_dec x (mask r + 1)) as [Hsm|Hbig].
        -- left. rewrite Z.mod_small by (unfold x; lia). unfold x. lia.
        -- right. assert (x / (mask r + 1) = 1).
           { symmetry.
             apply (Z.div_unique x (mask r + 1) 1 (x - (mask r + 1)));
               unfold x in *; lia. }
           unfold x in *. nia.
  - intros (_ & Hv0 & Hcong & Hint).
    apply Z.mod_divide in Hcong; [|lia]. destruct Hcong as [t Ht].
    destruct (Z.ltb_spec (left r) (right r)) as [Hlt|Hge].
    + exists (Z.to_nat t). assert (0 <= t) by nia.
      rewrite visited_left, Z2Nat.id by assumption.
      split; [nia|]. rewrite Z.mod_small by lia. lia.
    + destruct (Z_lt_ge_dec v (left r)) as [Hlow|Hhigh].
      * assert (Hr' : v < right r) by lia.
        exists (Z.to_nat (t + q)). assert (0 <= t + q) by nia.
        rewrite visited_left, Z2Nat.id by assumption.
        split; [nia|].
        replace (left r + (t + q) * step r) with (v + 1 * (mask r + 1)) by lia.
        rewrite Z_mod_plus_full, Z.mod_small by lia. reflexivity.
      * exists (Z.to_nat t). assert (0 <= t) by nia.
        rewrite visited_left, Z2Nat.id by assumption.
        split; [nia|]. rewrite Z.mod_small by lia. lia.
Qed.

Lemma iterate_from_nonempty (fuel : nat) (r : CircleRange) (val : Z) (vals : list Z) :
  iterate_from fuel r val = Some vals ->
  (1 <= length vals)%nat /\ head vals = Some val.
Proof.
  destruct fuel as [|fuel]; [discriminate|]. cbn [iterate_from].
  destruct (getNext r val) as [more val'].
  destruct more.
  - destruct (iterate_from fuel r val') as [vals'|]; [|discriminate].
    intros [= <-]. cbn. split; [lia|reflexivity].
  - intros [= <-]. cbn. split; [lia|reflexivity].
Qed.

Lemma cardinality_full (r : CircleRange) :
  left r = right r -> cardinality r = (mask r + 1) / step r.
Proof.
  intros E. unfold cardinality. rewrite E, Z.ltb_irrefl, Z.sub_diag.
  f_equal. lia.
Qed.

(** C3, as the code has it.  For a non-empty range that satisfies the
    representation invariant and has fewer than 2^64 elements, the protocol
    stops having visited exactly [getSize()] values; they are pairwise
    distinct, the first is [getMin()], they are the members of the range,
    and [(getMax() + step) mod (mask + 1)] is [right]. *)
Theorem iteration_yields_getSize (r : CircleRange) :
  valid r = true -> isempty r = false -> cardinality r < uintb_modulus ->
  exists vals : list Z,
    iterate (Z.to_nat (getSize r)) r = Some vals
    /\ Z.of_nat (length vals) = getSize r
    /\ NoDup vals
    /\ head vals = Some (getMin r)
    /\ (forall v, v ∈ vals <-> member r v)
    /\ (getMax r + step r) mod (mask r + 1) = right r.
Proof.
  intros Hv Hne Hc.
  destruct (valid_facts r Hv) as (Hm & _ & _ & _ & Hr & _).
  destruct (cardinality_span r Hv) as (Hpos & _).
  assert (Hsz : getSize r = cardinality r).
  { unfold getSize, to_uintb. rewrite Hne. apply Z.mod_small. lia. }
  rewrite Hsz.
  exists (map (visited r (left r)) (seq 0 (Z.to_nat (cardinality r)))).
  split; [apply iterate_valid; assumption|].
  split; [rewrite length_map, length_seq; lia|].
  split; [apply visited_NoDup; assumption|].
  split; [exact (proj2 (iterate_from_nonempty _ _ _ _ (iterate_valid r Hv)))|].
  split; [|apply getMax_step; assumption].
  intros v. rewrite <- visited_member by assumption.
  change (map ?f ?l) with (f <$> l). rewrite list_elem_of_fmap.
  split.
  - intros (j & -> & Hj). apply elem_of_seq in Hj. exists j. split; [lia|reflexivity].
  - intros (j & Hj & ->). exists j. split; [reflexivity|].
    apply elem_of_seq. lia.
Qed.

Lemma iteration_yields_getSize_witness :
  exists vals : list Z,
    iterate (Z.to_nat (getSize sample_wrapped)) sample_wrapped = Some vals
    /\ Z.of_nat (length vals) = getSize sample_wrapped
    /\ NoDup vals
    /\ head vals = Some (getMin sample_wrapped)
    /\ (forall v, v ∈ vals <-> member sample_wrapped v)
    /\ (getMax sample_wrapped + step sample_wrapped)
         mod (mask sample_wrapped + 1) = right sample_wrapped.
Proof.
  apply (iteration_yields_getSize sample_wrapped); reflexivity.
Defined.

(** The full range over eight bytes is visited in 2^64 steps, a number no
    [uintb] holds: [getSize()] cannot be the count there. *)
Lemma full64_visits_exceed_getSize :
  valid full64 = true /\ isempty full64 = false /\ isFull full64 = true
  /\ getSize full64 = 0
  /\ exists (fuel : nat) (vals : list Z),
       iterate fuel full64 = Some vals
       /\ NoDup vals
       /\ Z.of_nat (length vals) = 2 ^ 64
       /\ (Z.of_nat (length vals) =? getSize full64) = false
       /\ (forall z, 0 <= z < uintb_modulus -> Z.of_nat (length vals) <> z).
Proof.
  assert (Hv : valid full64 = true) by (vm_compute; reflexivity).
  assert (Hc : cardinality full64 = 2 ^ 64) by (vm_compute; reflexivity).
  assert (Hs : getSize full64 = 0) by (vm_compute; reflexivity).
  split; [exact Hv|]. split; [reflexivity|]. split; [reflexivity|].
  split; [exact Hs|].
  pose proof (iterate_valid full64 Hv) as Hrun.
  pose proof (visited_NoDup full64 Hv) as Hnd.
  revert Hrun Hnd. generalize (visited full64 (left full64)). intros f.
  generalize (Z.to_nat (cardinality full64)) (Z2Nat.id (cardinality full64)).
  rewrite Hc, Hs. intros n Hn Hrun Hnd.
  exists n, (map f (seq 0 n)).
  split; [exact Hrun|]. split; [exact Hnd|].
  rewrite length_map, length_seq.
  assert (Hn' : Z.of_nat n = 2 ^ 64) by (apply Hn; lia).
  split; [exact Hn'|]. rewrite Hn'. split; [reflexivity|].
  unfold uintb_modulus. intros z Hz. lia.
Qed.

Lemma iterate_trace_iterate (fuel : nat) (r : CircleRange) (val : Z) :
  iterate_from fuel r val
  = if snd (iterate_trace fuel r val)
    then Some (fst (iterate_trace fuel r val)) else None.
Proof.
  revert val. induction fuel as [|fuel IH]; intros val; [reflexivity|].
  cbn [iterate_from iterate_trace].
  destruct (getNext r val) as [more val']. destruct more; [|reflexivity].
  rewrite IH. destruct (iterate_trace fuel r val') as [vals stopped].
  destruct stopped; reflexivity.
Qed.

Lemma iterate_trace_runs (fuel : nat) (r : CircleRange) (val : Z) :
  head (fst (iterate_trace (S fuel) r val)) = Some val
  /\ (1 <= length (fst (iterate_trace (S fuel) r val)) <= S fuel)%nat
  /\ (snd (iterate_trace (S fuel) r val) = false ->
      length (fst (iterate_trace (S fuel) r val)) = S fuel).
Proof.
  split.
  - cbn [iterate_trace]. destruct (getNext r val) as [more val'].
    destruct more; [|reflexivity].
    destruct (iterate_trace fuel r val'); reflexivity.
  - revert val. induction fuel as [|fuel IH]; intros val.
    + cbn [iterate_trace]. destruct (getNext r val) as [more val'].
      destruct more; cbn; split; try lia; discriminate.
    + specialize (IH (snd (getNext r val))).
      remember (S fuel) as n eqn:Hn.
      cbn [iterate_trace]. destruct (getNext r val) as [more val'].
      cbn [snd] in IH. destruct more.
      * destruct (iterate_trace n r val') as [vals stopped].
        cbn [fst snd length] in *. split; [lia|].
        intros Hs. destruct IH as [_ IH]. rewrite (IH Hs). reflexivity.
      * cbn. split; [lia|discriminate].
Qed.

(** C4, as the code has it.  The body of the do-while loop runs before
    [getNext] is first asked, and nothing in the protocol reads [isempty]:
    on every range, empty or not, and under every positive bound on the
    number of runs, the body has run at least once, on [getMin()] first,
    whether the loop then stops or is still running when the bound is
    reached (it has then run as often as the bound allows).  A full range
    that satisfies the representation invariant is visited in exactly
    [(mask + 1) / step] runs; so is any valid range with [left = right],
    whatever its step. *)
Theorem protocol_run_counts (r : CircleRange) :
  (forall fuel,
     head (fst (iterate_trace (S fuel) r (getMin r))) = Some (getMin r)
     /\ (1 <= length (fst (iterate_trace (S fuel) r (getMin r))) <= S fuel)%nat
     /\ (snd (iterate_trace (S fuel) r (getMin r)) = false ->
         length (fst (iterate_trace (S fuel) r (getMin r))) = S fuel)
     /\ iterate (S fuel) r
        = if snd (iterate_trace (S fuel) r (getMin r))
          then Some (fst (iterate_trace (S fuel) r (getMin r))) else None)
  /\ (forall fuel vals, iterate fuel r = Some vals ->
      (1 <= length vals)%nat /\ head vals = Some (getMin r))
  /\ (valid r = true -> isFull r = true ->
      exists vals, iterate (Z.to_nat ((mask r + 1) / step r)) r = Some vals
                   /\ Z.of_nat (length vals) = (mask r + 1) / step r)
  /\ (valid r = true -> left r = right r ->
      exists vals, iterate (Z.to_nat ((mask r + 1) / step r)) r = Some vals
                   /\ Z.of_nat (length vals) = (mask r + 1) / step r).
Proof.
  assert (Hfull : valid r = true -> left r = right r ->
      exists vals, iterate (Z.to_nat ((mask r + 1) / step r)) r = Some vals
                   /\ Z.of_nat (length vals) = (mask r + 1) / step r).
  { intros Hv E. rewrite <- (cardinality_full r E).
    destruct (cardinality_span r Hv) as (Hpos & _).
    eexists. split; [apply iterate_valid; assumption|].
    rewrite length_map, length_seq. lia. }
  split; [|split; [|split]].
  - intros fuel.
    destruct (iterate_trace_runs fuel r (getMin r)) as (Hhead & Hlen & Hrun).
    split; [exact Hhead|]. split; [exact Hlen|]. split; [exact Hrun|].
    apply iterate_trace_iterate.
  - intros fuel vals. apply iterate_from_nonempty.
  - intros Hv Hf. apply Hfull; [assumption|].
    unfold isFull in Hf. rewrite !andb_true_iff in Hf.
    now apply Z.eqb_eq.
  - exact Hfull.
Qed.

Lemma protocol_run_counts_witness :
  (exists vals, iterate 256 sample_full = Some vals
                /\ Z.of_nat (length vals) = 256)
  /\ head (fst (iterate_trace 3 sample_empty_odd (getMin sample_empty_odd)))
     = Some 0
  /\ iterate 3 sample_empty_odd = None.
Proof.
  split; [|split].
  - apply (proj1 (proj2 (proj2 (protocol_run_counts sample_full))));
      reflexivity.
  - apply (proj1 (protocol_run_counts sample_empty_odd) 2%nat).
  - rewrite (proj2 (proj2 (proj2
               (proj1 (protocol_run_counts sample_empty_odd) 2%nat)))).
    reflexivity.
Defined.

(** An emptied range under the protocol: the body runs, here twice. *)
Lemma empty_range_is_visited :
  isEmpty sample_empty = true /\ iterate 2 sample_empty = Some [0; 1]
  /\ iterate_trace 2 sample_empty (getMin sample_empty) = ([0; 1], true).
Proof. repeat split; reflexivity. Qed.

(** ** Partition lists *)

Lemma chain_frame (vsm : gmap addr ValueSet) (a : addr) (vs' : ValueSet)
    (l : list addr) (p q : ptr) :
  a ∉ l -> chain vsm p l q -> chain (<[a := vs']> vsm) p l q.
Proof.
  revert p. induction l as [|b l IH]; intros p Hnot Hch; [exact Hch|].
  destruct Hch as (-> & vs & Hvs & Hrest).
  apply not_elem_of_cons in Hnot as [Hab Hnot].
  split; [reflexivity|]. exists vs. split.
  - now rewrite lookup_insert_ne.
  - now apply IH.
Qed.

Lemma chain_app (vsm : gmap addr ValueSet) (l1 l2 : list addr) (p mid q : ptr) :
  chain vsm p l1 mid -> chain vsm mid l2 q -> chain vsm p (l1 ++ l2) q.
Proof.
  revert p. induction l1 as [|a l1 IH]; intros p H1 H2.
  - cbn in *. now subst.
  - destruct H1 as (-> & vs & Hvs & Hrest). cbn.
    split; [reflexivity|]. exists vs. split; [assumption|]. now apply IH.
Qed.

(** Redirecting the [next] of the last node of a chain redirects the
    chain. *)
Lemma chain_redirect (vsm : gmap addr ValueSet) (l : list addr) (s : addr)
    (vs : ValueSet) (p q x : ptr) :
  chain vsm p (l ++ [s]) q -> s ∉ l -> vsm !! s = Some vs ->
  chain (<[s := set_next vs x]> vsm) p (l ++ [s]) x.
Proof.
  revert p. induction l as [|a l IH]; intros p Hch Hnot Hs.
  - destruct Hch as (-> & _). cbn. split; [reflexivity|].
    exists (set_next vs x). split; [apply lookup_insert_eq|reflexivity].
  - destruct Hch as (-> & vs0 & Hvs0 & Hrest).
    apply not_elem_of_cons in Hnot as [Hsa Hnot].
    cbn. split; [reflexivity|]. exists vs0. split.
    + now rewrite lookup_insert_ne.
    + now apply IH.
Qed.

(** Running the primitive commands. *)
Lemma bind_load_part {B : Type} (part : addr) (pt : Partition)
    (k : Partition -> exec B) (m : Memory) :
  partitions m !! part = Some pt -> bind (load_part part) k m = k pt m.
Proof. intros H. unfold bind, load_part. now rewrite H. Qed.

Lemma store_part_run (part : addr) (pt0 pt : Partition) (m : Memory) :
  partitions m !! part = Some pt0 ->
  store_part part pt m
  = Some (tt, {| valueSets := valueSets m;
                 partitions := <[part := pt]> (partitions m) |}).
Proof. intros H. unfold store_part. now rewrite H. Qed.

Lemma bind_store_part {B : Type} (part : addr) (pt0 pt : Partition)
    (k : unit -> exec B) (m : Memory) :
  partitions m !! part = Some pt0 ->
  bind (store_part part pt) k m
  = k tt {| valueSets := valueSets m;
            partitions := <[part := pt]> (partitions m) |}.
Proof. intros H. unfold bind. now rewrite (store_part_run part pt0). Qed.

Lemma bind_store_next {B : Type} (a : addr) (vs : ValueSet) (q : ptr)
    (k : unit -> exec B) (m : Memory) :
  valueSets m !! a = Some vs ->
  bind (store_next (Some a) q) k m
  = k tt {| valueSets := <[a := set_next vs q]> (valueSets m);
            partitions := partitions m |}.
Proof. intros H. unfold bind, store_next. now rewrite H. Qed.

Lemma bind_store_next_null {B : Type} (q : ptr) (k : unit -> exec B) (m : Memory) :
  bind (store_next None q) k m = None.
Proof. reflexivity. Qed.

Lemma partitionPrepend_vertex_run (m : Memory) (v part : addr)
    (vs : ValueSet) (pt : Partition) :
  valueSets m !! v = Some vs ->
  partitions m !! part = Some pt ->
  ValueSetSolver.partitionPrepend (Some v) part m
  = Some (tt,
          {| valueSets := <[v := set_next vs (startNode pt)]> (valueSets m);
             partitions :=
               <[part := {| startNode := Some v;
                            stopNode := match stopNode pt with
                                        | None => Some v
                                        | Some e => Some e
                                        end;
                            isDirty := isDirty pt |}]> (partitions m) |}).
Proof.
  intros Hv Hp. unfold ValueSetSolver.partitionPrepend.
  rewrite (bind_load_part part pt) by assumption.
  rewrite (bind_store_next v vs) by assumption.
  rewrite (bind_load_part part pt) by assumption.
  rewrite (bind_store_part part pt) by assumption.
  rewrite (bind_load_part part (set_startNode pt (Some v)))
    by apply lookup_insert_eq.
  cbn [set_startNode stopNode].
  destruct (stopNode pt) as [e|] eqn:Hstop.
  - unfold ret, set_startNode. cbn [partitions valueSets].
    rewrite Hstop. reflexivity.
  - rewrite (store_part_run part (set_startNode pt (Some v)))
      by apply lookup_insert_eq.
    cbn [partitions valueSets]. rewrite insert_insert_eq.
    unfold set_stopNode, set_startNode. cbn [startNode stopNode isDirty].
    reflexivity.
Qed.

(** C9. [partitionPrepend(vertex, part)] on a live [vertex] and [part]:
    afterwards [part.startNode] is [vertex], [vertex->next] is the previous
    [part.startNode] (nothing else of [vertex] changes), and
    [part.stopNode] is [vertex] if it was null and is unchanged otherwise;
    no other object is written. *)
Theorem partitionPrepend_vertex (m : Memory) (v part : addr)
    (vs : ValueSet) (pt : Partition) :
  valueSets m !! v = Some vs ->
  partitions m !! part = Some pt ->
  exists m' pt' vs',
    ValueSetSolver.partitionPrepend (Some v) part m = Some (tt, m')
    /\ partitions m' !! part = Some pt'
    /\ startNode pt' = Some v
    /\ valueSets m' !! v = Some vs'
    /\ next vs' = startNode pt
    /\ (typeCode vs' = typeCode vs /\ vn vs' = vn vs /\ opCode vs' = opCode vs
        /\ numParams vs' = numParams vs /\ range vs' = range vs
        /\ count vs' = count vs /\ equations vs' = equations vs
        /\ partHead vs' = partHead vs)
    /\ vs' = set_next vs (startNode pt)
    /\ stopNode pt' = match stopNode pt with
                      | None => Some v
                      | Some s => Some s
                      end
    /\ isDirty pt' = isDirty pt
    /\ valueSets m' = <[v := vs']> (valueSets m)
    /\ partitions m' = <[part := pt']> (partitions m).
Proof.
  intros Hv Hp.
  exists {| valueSets := <[v := set_next vs (startNode pt)]> (valueSets m);
            partitions :=
              <[part := {| startNode := Some v;
                           stopNode := match stopNode pt with
                                       | None => Some v
                                       | Some e => Some e
                                       end;
                           isDirty := isDirty pt |}]> (partitions m) |},
    {| startNode := Some v;
       stopNode := match stopNode pt with
                   | None => Some v
                   | Some e => Some e
                   end;
       isDirty := isDirty pt |},
    (set_next vs (startNode pt)).
  split; [now apply partitionPrepend_vertex_run|].
  cbn [partitions valueSets startNode stopNode isDirty].
  rewrite !lookup_insert_eq.
  repeat split; reflexivity.
Qed.

Lemma partitionPrepend_vertex_witness :
  (exists m' pt' vs',
     ValueSetSolver.partitionPrepend (Some 4%positive) 11%positive sample_memory
       = Some (tt, m')
     /\ partitions m' !! 11%positive = Some pt'
     /\ startNode pt' = Some 4%positive
     /\ valueSets m' !! 4%positive = Some vs'
     /\ next vs' = Some 3%positive
     /\ stopNode pt' = Some 3%positive
     /\ isDirty pt' = true)
  /\ (exists m' pt' vs',
       ValueSetSolver.partitionPrepend (Some 4%positive) 12%positive sample_memory
         = Some (tt, m')
       /\ partitions m' !! 12%positive = Some pt'
       /\ startNode pt' = Some 4%positive
       /\ valueSets m' !! 4%positive = Some vs'
       /\ next vs' = None
       /\ stopNode pt' = Some 4%positive
       /\ isDirty pt' = false).
Proof.
  split.
  - destruct (partitionPrepend_vertex sample_memory 4%positive 11%positive
                (sample_node None)
                {| startNode := Some 3%positive; stopNode := Some 3%positive;
                   isDirty := true |} eq_refl eq_refl)
      as (m' & pt' & vs' & Hrun & Hpt & Hstart & Hvs & Hnext & _ & _
          & Hstop & Hdirty & _).
    exists m', pt', vs'. repeat split; assumption.
  - destruct (partitionPrepend_vertex sample_memory 4%positive 12%positive
                (sample_node None) Partition_new eq_refl eq_refl)
      as (m' & pt' & vs' & Hrun & Hpt & Hstart & Hvs & Hnext & _ & _
          & Hstop & Hdirty & _).
    exists m', pt', vs'. repeat split; assumption.
Defined.

(** What [partitionPrepend(head, part)] leaves in [part]. *)
Lemma partitionPrepend_head_run (m : Memory) (head part s : addr)
    (h pt : Partition) (vs : ValueSet) :
  partitions m !! head = Some h ->
  partitions m !! part = Some pt ->
  stopNode h = Some s ->
  valueSets m !! s = Some vs ->
  ValueSetSolver.partitionPrepend_head head part m
  = Some (tt,
          {| valueSets := <[s := set_next vs (startNode pt)]> (valueSets m);
             partitions :=
               <[part := {| startNode := startNode h;
                            stopNode := match stopNode pt with
                                        | None => Some s
                                        | Some e => Some e
                                        end;
                            isDirty := isDirty pt |}]> (partitions m) |}).
Proof.
  intros Hh Hp Hstop Hs.
  unfold ValueSetSolver.partitionPrepend_head.
  rewrite (bind_load_part head h) by assumption.
  rewrite (bind_load_part part pt) by assumption.
  rewrite Hstop, (bind_store_next s vs) by assumption.
  rewrite (bind_load_part head h) by assumption.
  rewrite (bind_load_part part pt) by assumption.
  rewrite (bind_store_part part pt) by assumption.
  rewrite (bind_load_part part (set_startNode pt (startNode h)))
    by apply lookup_insert_eq.
  cbn [set_startNode stopNode].
  destruct (stopNode pt) as [e|] eqn:Hpstop.
  - unfold ret, set_startNode. cbn [partitions valueSets].
    rewrite Hpstop. reflexivity.
  - assert (Hne : part <> head) by (intros ->; congruence).
    rewrite (bind_load_part head h)
      by (cbn [partitions]; now rewrite lookup_insert_ne).
    rewrite (store_part_run part (set_startNode pt (startNode h)))
      by apply lookup_insert_eq.
    cbn [partitions valueSets]. rewrite insert_insert_eq, Hstop.
    unfold set_stopNode, set_startNode. cbn [startNode stopNode isDirty].
    reflexivity.
Qed.

(** C10. [partitionPrepend(head, part)] dereferences [head.stopNode]
    before anything else is written: with a null [head.stopNode] the call
    has no result, so a call that has one was made on a non-empty [head].
    With [head.stopNode] a live node [s], the call succeeds: [s->next]
    becomes the previous [part.startNode], [part.startNode] becomes
    [head.startNode], and [part.stopNode] becomes [s] if it was null and
    is unchanged otherwise.  When [head] holds the list [lh] and [part]
    the list [lp], with no node in common, [part] holds [lh ++ lp]
    afterwards. *)
Theorem partitionPrepend_head_spec (m : Memory) (head part : addr)
    (h pt : Partition) :
  partitions m !! head = Some h ->
  partitions m !! part = Some pt ->
  (stopNode h = None ->
     ValueSetSolver.partitionPrepend_head head part m = None)
  /\ (is_Some (ValueSetSolver.partitionPrepend_head head part m) ->
      is_Some (stopNode h))
  /\ (forall s vs, stopNode h = Some s -> valueSets m !! s = Some vs ->
      exists m' pt',
        ValueSetSolver.partitionPrepend_head head part m = Some (tt, m')
        /\ partitions m' !! part = Some pt'
        /\ valueSets m' !! s = Some (set_next vs (startNode pt))
        /\ startNode pt' = startNode h
        /\ stopNode pt' = match stopNode pt with
                          | None => Some s
                          | Some e => Some e
                          end
        /\ isDirty pt' = isDirty pt
        /\ valueSets m' = <[s := set_next vs (startNode pt)]> (valueSets m)
        /\ partitions m' = <[part := pt']> (partitions m)
        /\ (forall lh lp qh q,
              holds (valueSets m) h lh qh ->
              holds (valueSets m) pt lp q ->
              NoDup (lh ++ lp) ->
              holds (valueSets m') pt' (lh ++ lp) q)).
Proof.
  intros Hh Hp.
  assert (Hnull : stopNode h = None ->
            ValueSetSolver.partitionPrepend_head head part m = None).
  { intros Hstop. unfold ValueSetSolver.partitionPrepend_head.
    rewrite (bind_load_part head h) by assumption.
    rewrite (bind_load_part part pt) by assumption.
    rewrite Hstop. apply bind_store_next_null. }
  split; [exact Hnull|]. split.
  - intros [res Hres]. destruct (stopNode h) as [s|]; [now exists s|].
    rewrite Hnull in Hres by reflexivity. discriminate.
  - intros s vs Hstop Hs.
    eexists _, _. split; [apply (partitionPrepend_head_run m head part s h pt vs);
                          assumption|].
    cbn [partitions valueSets]. rewrite !lookup_insert_eq.
    do 7 (split; [reflexivity|]).
    intros lh lp qh q [Hch Hlast] [Hcp Hplast] Hnd.
    rewrite Hstop in Hlast. symmetry in Hlast.
    apply last_Some in Hlast as [l' ->].
    apply NoDup_app in Hnd as (Hndh & Hdisj & _).
    apply NoDup_app in Hndh as (_ & Hsl & _).
    assert (Hs_l' : s ∉ l').
    { intros Hin. apply (Hsl s Hin). now left. }
    assert (Hs_lp : s ∉ lp).
    { apply Hdisj. apply elem_of_app. right. now left. }
    split; cbn [startNode stopNode].
    + apply (chain_app _ _ _ _ (startNode pt)).
      * now apply (chain_redirect _ _ _ _ _ qh).
      * now apply chain_frame.
    + rewrite last_app, <- Hplast, last_snoc.
      destruct (stopNode pt); reflexivity.
Qed.

Lemma partitionPrepend_head_spec_witness :
  ValueSetSolver.partitionPrepend_head 12%positive 11%positive sample_memory = None
  /\ exists m' pt',
       ValueSetSolver.partitionPrepend_head 10%positive 11%positive sample_memory
         = Some (tt, m')
       /\ partitions m' !! 11%positive = Some pt'
       /\ holds (valueSets m') pt' [1%positive; 2%positive; 3%positive] None.
Proof.
  split.
  - apply (proj1 (partitionPrepend_head_spec sample_memory 12%positive
             11%positive Partition_new
             {| startNode := Some 3%positive; stopNode := Some 3%positive;
                isDirty := true |} eq_refl eq_refl)).
    reflexivity.
  - destruct (proj2 (proj2 (partitionPrepend_head_spec sample_memory 10%positive
                11%positive
                {| startNode := Some 1%positive; stopNode := Some 2%positive;
                   isDirty := false |}
                {| startNode := Some 3%positive; stopNode := Some 3%positive;
                   isDirty := true |} eq_refl eq_refl))
              2%positive (sample_node None) eq_refl eq_refl)
      as (m' & pt' & Hrun & Hpt & _ & _ & _ & _ & _ & _ & Hholds).
    exists m', pt'. split; [exact Hrun|]. split; [exact Hpt|].
    apply (Hholds [1%positive; 2%positive] [3%positive] None None).
    + split; [|reflexivity]. cbn. split; [reflexivity|].
      exists (sample_node (Some 2%positive)). split; [reflexivity|].
      cbn. split; [reflexivity|].
      exists (sample_node None). split; reflexivity.
    + split; [|reflexivity]. cbn. split; [reflexivity|].
      exists (sample_node None). split; reflexivity.
    + apply (bool_decide_unpack _). reflexivity.
Defined.

(** * Further properties of the range members *)

(** ** Equality *)

(** X1. [operator==] is an equivalence on ranges: every range equals
    itself, the comparison does not depend on the order of its operands,
    and it is transitive. *)
Theorem operator_eq_equivalence (A B C : CircleRange) :
  operator_eq A A = true
  /\ operator_eq A B = operator_eq B A
  /\ (operator_eq A B = true -> operator_eq B C = true ->
      operator_eq A C = true).
Proof.
  unfold operator_eq. split; [|split].
  - destruct (isempty A); cbn; [reflexivity|]. now rewrite !Z.eqb_refl.
  - destruct (isempty A), (isempty B); cbn; try reflexivity.
    now rewrite (Z.eqb_sym (left A)), (Z.eqb_sym (right A)),
      (Z.eqb_sym (mask A)), (Z.eqb_sym (step A)).
  - destruct (isempty A), (isempty B), (isempty C); cbn;
      try reflexivity; try discriminate.
    rewrite !andb_true_iff, !Z.eqb_eq.
    intros (((-> & ->) & ->) & ->) (((-> & ->) & ->) & ->). auto.
Qed.

Lemma operator_eq_equivalence_witness :
  operator_eq sample_empty (mkCircleRange 1 1 1 true 1) = true.
Proof.
  apply (proj2 (proj2 (operator_eq_equivalence sample_empty sample_empty'
                         (mkCircleRange 1 1 1 true 1)))); reflexivity.
Defined.

(** ** Values stay in the domain *)

Lemma land_bounds (x m : Z) : 0 <= m -> 0 <= Z.land x m <= m.
Proof.
  intros Hm. apply Z.ldiff_le; [assumption|].
  now rewrite Z.ldiff_land, <- Z.land_assoc, Z.land_lnot_diag, Z.land_0_r.
Qed.

(** X2. Whatever [val] and the boundaries are, the value [getNext] leaves
    in [val] and the value [getMax] returns lie in [0, mask]; only a
    non-negative mask is needed. *)
Theorem getNext_getMax_in_domain (r : CircleRange) (val : Z) :
  0 <= mask r ->
  0 <= snd (getNext r val) <= mask r /\ 0 <= getMax r <= mask r.
Proof.
  intros Hm. unfold getNext, getMax. cbn [snd].
  split; now apply land_bounds.
Qed.

Lemma getNext_getMax_in_domain_witness :
  0 <= snd (getNext from_five (2 ^ 32 - 1)) <= mask from_five
  /\ 0 <= getMax from_five <= mask from_five.
Proof.
  apply (getNext_getMax_in_domain from_five (2 ^ 32 - 1)).
  vm_compute. discriminate.
Defined.

(** ** getNext and getMax undo each other *)

(** X3. [getNext] asked at [getMax()] stores [right] and answers [false]:
    the protocol stops right after the body has seen [getMax()]. *)
Theorem getNext_at_getMax (r : CircleRange) :
  is_mask (mask r) = true -> 0 <= right r <= mask r ->
  getNext r (getMax r) = (false, right r).
Proof.
  intros Hm Hr. rewrite getNext_advance by assumption. unfold advance.
  rewrite getMax_step by assumption. now rewrite Z.eqb_refl.
Qed.

Lemma getNext_at_getMax_witness :
  getNext from_five (getMax from_five) = (false, 0).
Proof.
  apply (getNext_at_getMax from_five); [reflexivity|].
  vm_compute. split; discriminate.
Defined.

(** X4. Stepping back as [getMax] does undoes a step of [getNext]: for
    [val] in the domain, [getMax] of the range that ends where [getNext]
    arrives is [val] again.  Hence [getNext] never sends two values of the
    domain to the same value. *)
Theorem getMax_after_getNext (r : CircleRange) (val val' : Z) :
  is_mask (mask r) = true ->
  0 <= val <= mask r -> 0 <= val' <= mask r ->
  getMax {| left := left r; right := snd (getNext r val); mask := mask r;
            isempty := isempty r; step := step r |} = val
  /\ (snd (getNext r val) = snd (getNext r val') -> val = val').
Proof.
  intros Hm Hv Hv'.
  assert (Hback : forall v, 0 <= v <= mask r ->
            Z.land (uintb_sub (snd (getNext r v)) (uintb_of_int4 (step r))) (mask r) = v).
  { intros v Hvd. rewrite getNext_advance by assumption. cbn [snd].
    rewrite uintb_sub_int4, land_to_uintb by assumption.
    unfold advance. rewrite Zminus_mod_idemp_l.
    replace (v + step r - step r) with v by lia.
    apply Z.mod_small. lia. }
  split.
  - unfold getMax. cbn [right step mask]. now apply Hback.
  - intros E. rewrite <- (Hback val Hv), <- (Hback val' Hv'). now rewrite E.
Qed.

Lemma getMax_after_getNext_witness :
  getMax {| left := left sample_wrapped;
            right := snd (getNext sample_wrapped 15);
            mask := mask sample_wrapped; isempty := isempty sample_wrapped;
            step := step sample_wrapped |} = 15.
Proof.
  assert (Hd : 0 <= 15 <= mask sample_wrapped) by (cbn; lia).
  exact (proj1 (getMax_after_getNext sample_wrapped 15 15 eq_refl Hd Hd)).
Defined.

(** ** What the protocol visits *)

Lemma visited_linear (r : CircleRange) (val : Z) (j : nat) :
  is_mask (mask r) = true -> 0 <= val <= mask r ->
  visited r val j = (val + Z.of_nat j * step r) mod (mask r + 1).
Proof.
  intros Hm Hv. induction j as [|j IH].
  - cbn. rewrite Z.add_0_r. symmetry. apply Z.mod_small. lia.
  - change (visited r val (S j)) with (advance r (visited r val j)).
    rewrite IH. unfold advance. rewrite Zplus_mod_idemp_l. f_equal. lia.
Qed.

Lemma visited_S_domain (r : CircleRange) (val : Z) (j : nat) :
  is_mask (mask r) = true -> 0 <= visited r val (S j) <= mask r.
Proof.
  intros Hm. change (visited r val (S j)) with (advance r (visited r val j)).
  unfold advance. pose proof (is_mask_pos _ Hm).
  pose proof (Z.mod_pos_bound (visited r val j + step r) (mask r + 1)). lia.
Qed.

Lemma getMax_mod (r : CircleRange) :
  is_mask (mask r) = true ->
  getMax r = (right r - step r) mod (mask r + 1).
Proof.
  intros Hm. unfold getMax. now rewrite uintb_sub_int4, land_to_uintb.
Qed.

(** X5. Whenever the protocol stops on a range whose [left] lies in the
    domain, the last value the body saw is [getMax()]. *)
Theorem last_visited_is_getMax (r : CircleRange) (fuel : nat) (vals : list Z) :
  is_mask (mask r) = true -> 0 <= left r <= mask r ->
  iterate fuel r = Some vals ->
  last vals = Some (getMax r).
Proof.
  intros Hm Hl Hrun.
  destruct (iterate_from_stops r Hm _ _ _ Hrun) as (k & _ & _ & -> & Hk & _).
  rewrite seq_S, map_app. cbn [map]. rewrite last_snoc, Nat.add_0_l. f_equal.
  rewrite getMax_mod by assumption. rewrite <- Hk.
  change (visited r (getMin r) (S k))
    with (advance r (visited r (getMin r) k)).
  unfold advance. rewrite Zminus_mod_idemp_l.
  replace (visited r (getMin r) k + step r - step r)
    with (visited r (getMin r) k) by lia.
  unfold getMin. rewrite visited_linear by assumption.
  now rewrite Zmod_mod.
Qed.

Lemma last_visited_is_getMax_witness :
  last [12; 13; 14; 15; 0; 1; 2; 3] = Some (getMax sample_wrapped).
Proof.
  apply (last_visited_is_getMax sample_wrapped 8).
  - reflexivity.
  - cbn. lia.
  - reflexivity.
Defined.

(** X6. For a non-empty range over a proper mask with both boundaries in
    the domain, [isSingle] says that [getMin()] and [getMax()] coincide,
    and that the protocol stops after one run of the body. *)
Theorem isSingle_characterised (r : CircleRange) :
  isempty r = false -> is_mask (mask r) = true ->
  0 <= left r <= mask r -> 0 <= right r <= mask r ->
  (isSingle r = true <-> getMin r = getMax r)
  /\ (isSingle r = true <-> iterate 1 r = Some [getMin r]).
Proof.
  intros Hne Hm Hl Hr.
  assert (HM : 0 < mask r + 1) by (apply is_mask_pos; assumption).
  assert (Hs : isSingle r = true <-> right r = advance r (left r)).
  { unfold isSingle. rewrite Hne, uintb_add_int4, land_to_uintb by assumption.
    cbn [negb andb]. apply Z.eqb_eq. }
  split.
  - rewrite Hs, getMax_mod by assumption. unfold getMin, advance. split.
    + intros ->. rewrite Zminus_mod_idemp_l.
      replace (left r + step r - step r) with (left r) by lia.
      symmetry. apply Z.mod_small. lia.
    + intros ->. rewrite Zplus_mod_idemp_l.
      replace (right r - step r + step r) with (right r) by lia.
      symmetry. apply Z.mod_small. lia.
  - rewrite Hs. unfold iterate, getMin. cbn [iterate_from].
    rewrite getNext_advance by assumption.
    destruct (Z.eqb_spec (advance r (left r)) (right r)) as [E|E]; cbn [negb].
    + split; [reflexivity|]. intros _. now symmetry.
    + split; [intros E'; now elim E|discriminate].
Qed.

Lemma isSingle_characterised_witness :
  getMin (mkCircleRange 15 0 15 false 1) = getMax (mkCircleRange 15 0 15 false 1).
Proof.
  assert (H0 : 0 <= 0 <= 15) by lia.
  assert (H15 : 0 <= 15 <= 15) by lia.
  apply (proj1 (isSingle_characterised (mkCircleRange 15 0 15 false 1)
                  eq_refl eq_refl H15 H0)).
  reflexivity.
Defined.

(** X7. Over a domain of more than one value a full range is not single. *)
Theorem isFull_not_isSingle (r : CircleRange) :
  is_mask (mask r) = true -> 0 < mask r -> 0 <= left r <= mask r ->
  isFull r = true -> isSingle r = false.
Proof.
  intros Hm Hpos Hl Hf.
  unfold isFull in Hf. rewrite !andb_true_iff, negb_true_iff, !Z.eqb_eq in Hf.
  destruct Hf as [[Hne Hs] E].
  unfold isSingle. rewrite Hne, uintb_add_int4, land_to_uintb by assumption.
  cbn [negb andb]. apply Z.eqb_neq. rewrite <- E, Hs.
  destruct (Z.eq_dec (left r) (mask r)) as [Hlast|Hin].
  - rewrite Hlast, Z.mod_same by lia. lia.
  - rewrite Z.mod_small by lia. lia.
Qed.

Lemma isFull_not_isSingle_witness : isSingle sample_full = false.
Proof.
  apply (isFull_not_isSingle sample_full); [reflexivity| | |reflexivity];
    cbn; lia.
Defined.

(** X8. With a proper mask, a proper step and both boundaries in the
    domain, the protocol stops if and only if [step] divides the circular
    distance from [left] to [right]; otherwise the loop runs for ever. *)
Theorem protocol_stops_iff (r : CircleRange) :
  is_mask (mask r) = true -> is_step (mask r) (step r) = true ->
  0 <= left r <= mask r -> 0 <= right r <= mask r ->
  ((exists fuel vals, iterate fuel r = Some vals)
   <-> ((right r - left r) mod (mask r + 1)) mod step r = 0).
Proof.
  intros Hm Hs Hl Hr. split.
  - intros (fuel & vals & Hrun).
    destruct (iterate_from_stops r Hm _ _ _ Hrun) as (k & _ & _ & _ & Hk & _).
    destruct (is_step_facts _ _ Hm Hs) as [Hpos Hdiv].
    unfold getMin in Hk. rewrite visited_linear in Hk by assumption.
    apply reach_iff in Hk; [|lia]. rewrite <- Hk.
    rewrite Z.mod_mod_divide by assumption. apply Z_mod_mult.
  - intros Hd.
    assert (Hv : valid r = true).
    { unfold valid. rewrite Hm, Hs. cbn [andb].
      rewrite !andb_true_iff, !Z.leb_le, Z.eqb_eq. lia. }
    eexists _, _. apply (iterate_valid r Hv).
Qed.

Lemma protocol_stops_iff_witness :
  (exists fuel vals, iterate fuel (mkCircleRange 0 3 15 false 2) = Some vals)
  <-> ((3 - 0) mod (15 + 1)) mod 2 = 0.
Proof.
  assert (H0 : 0 <= 0 <= 15) by lia.
  assert (H3 : 0 <= 3 <= 15) by lia.
  exact (protocol_stops_iff (mkCircleRange 0 3 15 false 2)
           eq_refl eq_refl H0 H3).
Defined.

(** X9. A [right] outside the domain is never reached: the loop has no
    last run, whatever the fuel. *)
Theorem right_outside_domain_loops (r : CircleRange) (fuel : nat) :
  is_mask (mask r) = true -> right r < 0 \/ mask r < right r ->
  iterate fuel r = None.
Proof.
  intros Hm Hout. destruct (iterate fuel r) as [vals|] eqn:Hrun; [|reflexivity].
  destruct (iterate_from_stops r Hm _ _ _ Hrun) as (k & _ & _ & _ & Hk & _).
  pose proof (visited_S_domain r (getMin r) k Hm). lia.
Qed.

Lemma right_outside_domain_loops_witness :
  iterate 1000 (mkCircleRange 0 16 15 false 1) = None.
Proof.
  apply (right_outside_domain_loops (mkCircleRange 0 16 15 false 1) 1000).
  - reflexivity.
  - right. cbn. lia.
Defined.

(** X10. The protocol respects the open end: after the first value every
    value the body sees lies in the domain and differs from [right], so
    [right] itself is visited only when it is [left]. *)
Theorem protocol_never_yields_right (r : CircleRange) (fuel : nat) (vals : list Z) :
  is_mask (mask r) = true ->
  iterate fuel r = Some vals ->
  (forall v, v ∈ tail vals -> 0 <= v <= mask r /\ v <> right r)
  /\ (left r <> right r -> right r ∉ vals).
Proof.
  intros Hm Hrun.
  destruct (iterate_from_stops r Hm _ _ _ Hrun) as (k & _ & _ & -> & _ & Hne).
  rewrite visited_seq. cbn [tail].
  assert (Htail : forall v,
            v ∈ map (visited r (advance r (getMin r))) (seq 0 k) ->
            0 <= v <= mask r /\ v <> right r).
  { intros v Hv. change (map ?f ?l) with (f <$> l) in Hv.
    apply list_elem_of_fmap in Hv as (j & -> & Hj). apply elem_of_seq in Hj.
    rewrite <- visited_S. split.
    - now apply visited_S_domain.
    - apply Hne. lia. }
  split; [exact Htail|].
  intros Hlr Hin. apply elem_of_cons in Hin as [E|Hin].
  - apply Hlr. now symmetry.
  - now apply (Htail _ Hin).
Qed.

Lemma protocol_never_yields_right_witness :
  (forall v, v ∈ tail [12; 13; 14; 15; 0; 1; 2; 3] ->
     0 <= v <= mask sample_wrapped /\ v <> right sample_wrapped)
  /\ (left sample_wrapped <> right sample_wrapped ->
      right sample_wrapped ∉ [12; 13; 14; 15; 0; 1; 2; 3]).
Proof.
  exact (protocol_never_yields_right sample_wrapped 8
           [12; 13; 14; 15; 0; 1; 2; 3] eq_refl eq_refl).
Defined.

(** ** The overlap code depends on the order of the boundaries only *)

(** X11. Boundaries mapped through an order embedding give the same
    overlap code: [encodeRangeOverlaps] sees nothing of the four values
    but their relative order. *)
Theorem encodeRangeOverlaps_order_only (arrange : list ascii) (f : Z -> Z)
    (l r l' r' : Z) :
  (forall x y, f x <= f y <-> x <= y) ->
  encodeRangeOverlaps arrange (f l) (f r) (f l') (f r')
  = encodeRangeOverlaps arrange l r l' r'.
Proof.
  intros Hf.
  assert (Hleb : forall x y, (f x <=? f y) = (x <=? y)).
  { intros x y. destruct (Z.leb_spec x y) as [H|H].
    - apply Z.leb_le, Hf, H.
    - apply Z.leb_gt. destruct (Z_lt_ge_dec (f y) (f x)) as [|Hge]; [assumption|].
      assert (Hxy : x <= y) by (apply Hf; lia). lia. }
  unfold encodeRangeOverlaps. now rewrite !Hleb.
Qed.

Lemma encodeRangeOverlaps_order_only_witness :
  encodeRangeOverlaps sample_arrange (2 * 2 + 100) (2 * 8 + 100)
    (2 * 5 + 100) (2 * 12 + 100)
  = encodeRangeOverlaps sample_arrange 2 8 5 12.
Proof.
  apply (encodeRangeOverlaps_order_only sample_arrange
           (fun x => 2 * x + 100) 2 8 5 12).
  intros x y. lia.
Defined.

Lemma encodeRangeOverlaps_relationVector (arrange : list ascii) (l r l' r' : Z) :
  encodeRangeOverlaps arrange l r l' r'
  = nth (Z.to_nat (relationVector l r l' r')) arrange "000"%char.
Proof.
  unfold encodeRangeOverlaps, relationVector.
  destruct (l <=? r), (l <=? l'), (l <=? r'), (r <=? l'), (r <=? r'),
    (l' <=? r'); reflexivity.
Qed.

Lemma relationVector_reachable (l r l' r' : Z) :
  relationVector l r l' r' ∈ reachableIndices.
Proof.
  unfold relationVector.
  destruct (Z.leb_spec l r), (Z.leb_spec l l'), (Z.leb_spec l r'),
    (Z.leb_spec r l'), (Z.leb_spec r r'), (Z.leb_spec l' r');
    first [ apply (bool_decide_unpack _); vm_compute; exact I
          | exfalso; lia ].
Qed.

Lemma reachableIndices_attained :
  forallb (fun i =>
    existsb (fun b => match b with
                      | (l, r, l', r') => relationVector l r l' r' =? i
                      end) smallBoundaries) reachableIndices = true.
Proof. vm_compute. reflexivity. Qed.

(** X12. Of the 64 entries of [arrange], [encodeRangeOverlaps] can read 24
    only: whatever the boundaries, the entry read is one of
    [reachableIndices], and each of these is read for some boundaries.  The
    other 40 index values describe comparisons no four integers satisfy. *)
Theorem encodeRangeOverlaps_reads :
  (forall l r l' r', exists i,
      i ∈ reachableIndices
      /\ forall arrange, encodeRangeOverlaps arrange l r l' r'
                         = nth (Z.to_nat i) arrange "000"%char)
  /\ (forall i, i ∈ reachableIndices -> exists l r l' r',
        forall arrange, encodeRangeOverlaps arrange l r l' r'
                        = nth (Z.to_nat i) arrange "000"%char)
  /\ length reachableIndices = 24%nat
  /\ NoDup reachableIndices.
Proof.
  split; [|split; [|split]].
  - intros l r l' r'. exists (relationVector l r l' r'). split.
    + apply relationVector_reachable.
    + intros arrange. apply encodeRangeOverlaps_relationVector.
  - intros i Hi. apply list_elem_of_In in Hi.
    pose proof reachableIndices_attained as Hall.
    rewrite forallb_forall in Hall. specialize (Hall i Hi).
    apply existsb_exists in Hall as ([[[l r] l'] r'] & _ & E).
    apply Z.eqb_eq in E. exists l, r, l', r'. intros arrange.
    now rewrite encodeRangeOverlaps_relationVector, E.
  - reflexivity.
  - apply (bool_decide_unpack _). vm_compute. exact I.
Qed.

(** * Further properties of the partition lists *)

Lemma bind_load_part_dangling {B : Type} (part : addr)
    (k : Partition -> exec B) (m : Memory) :
  partitions m !! part = None -> bind (load_part part) k m = None.
Proof. intros H. unfold bind, load_part. now rewrite H. Qed.

Lemma bind_store_next_dangling {B : Type} (a : addr) (q : ptr)
    (k : unit -> exec B) (m : Memory) :
  valueSets m !! a = None -> bind (store_next (Some a) q) k m = None.
Proof. intros H. unfold bind, store_next. now rewrite H. Qed.

(** X13. [partitionPrepend(vertex, part)] has a result exactly when
    [vertex] is a non-null pointer to a live ValueSet and [part] names a
    live Partition: a null or dangling argument is the only way to fail. *)
Theorem partitionPrepend_vertex_safe (m : Memory) (vertex : ptr) (part : addr) :
  is_Some (ValueSetSolver.partitionPrepend vertex part m)
  <-> (exists v, vertex = Some v /\ is_Some (valueSets m !! v))
      /\ is_Some (partitions m !! part).
Proof.
  split.
  - intros [res Hres].
    destruct (partitions m !! part) as [pt|] eqn:Hp.
    + split; [|now exists pt].
      unfold ValueSetSolver.partitionPrepend in Hres.
      rewrite (bind_load_part part pt) in Hres by assumption.
      destruct vertex as [v|]; [|discriminate].
      exists v. split; [reflexivity|].
      destruct (valueSets m !! v) as [vs|] eqn:Hv; [now exists vs|].
      rewrite bind_store_next_dangling in Hres by assumption. discriminate.
    + unfold ValueSetSolver.partitionPrepend in Hres.
      rewrite bind_load_part_dangling in Hres by assumption. discriminate.
  - intros [(v & -> & [vs Hv]) [pt Hp]].
    rewrite (partitionPrepend_vertex_run m v part vs pt) by assumption.
    eexists. reflexivity.
Qed.

(** X14. [partitionPrepend(head, part)] has a result exactly when [head]
    and [part] name live Partitions and [head.stopNode] is a non-null
    pointer to a live ValueSet; [head.startNode] is never dereferenced. *)
Theorem partitionPrepend_head_safe (m : Memory) (head part : addr) :
  is_Some (ValueSetSolver.partitionPrepend_head head part m)
  <-> exists h s,
        partitions m !! head = Some h
        /\ is_Some (partitions m !! part)
        /\ stopNode h = Some s
        /\ is_Some (valueSets m !! s).
Proof.
  split.
  - intros [res Hres]. unfold ValueSetSolver.partitionPrepend_head in Hres.
    destruct (partitions m !! head) as [h|] eqn:Hh;
      [|rewrite bind_load_part_dangling in Hres by assumption; discriminate].
    rewrite (bind_load_part head h) in Hres by assumption.
    destruct (partitions m !! part) as [pt|] eqn:Hp;
      [|rewrite bind_load_part_dangling in Hres by assumption; discriminate].
    rewrite (bind_load_part part pt) in Hres by assumption.
    destruct (stopNode h) as [s|] eqn:Hstop; [|discriminate].
    destruct (valueSets m !! s) as [vs|] eqn:Hs;
      [|rewrite bind_store_next_dangling in Hres by assumption; discriminate].
    exists h, s. repeat split; eauto.
  - intros (h & s & Hh & [pt Hp] & Hstop & [vs Hs]).
    rewrite (partitionPrepend_head_run m head part s h pt vs) by assumption.
    eexists. reflexivity.
Qed.

(** X15. The two overloads agree: prepending a Partition that holds the
    single node [v] does to the memory what prepending the vertex [v]
    does, failures included, also when [head] and [part] are one object. *)
Theorem partitionPrepend_overloads_agree (m : Memory) (head part v : addr)
    (h : Partition) :
  partitions m !! head = Some h ->
  startNode h = Some v -> stopNode h = Some v ->
  ValueSetSolver.partitionPrepend_head head part m
  = ValueSetSolver.partitionPrepend (Some v) part m.
Proof.
  intros Hh Hstart Hstop.
  destruct (partitions m !! part) as [pt|] eqn:Hp.
  - destruct (valueSets m !! v) as [vs|] eqn:Hv.
    + rewrite (partitionPrepend_head_run m head part v h pt vs),
        (partitionPrepend_vertex_run m v part vs pt) by assumption.
      now rewrite Hstart.
    + unfold ValueSetSolver.partitionPrepend_head,
        ValueSetSolver.partitionPrepend.
      rewrite (bind_load_part head h) by assumption.
      rewrite !(bind_load_part part pt) by assumption.
      rewrite Hstop. now rewrite !bind_store_next_dangling by assumption.
  - unfold ValueSetSolver.partitionPrepend_head,
      ValueSetSolver.partitionPrepend.
    rewrite (bind_load_part head h) by assumption.
    now rewrite !bind_load_part_dangling by assumption.
Qed.

Lemma partitionPrepend_overloads_agree_witness :
  ValueSetSolver.partitionPrepend_head 11%positive 10%positive sample_memory
  = ValueSetSolver.partitionPrepend (Some 3%positive) 10%positive sample_memory.
Proof.
  apply (partitionPrepend_overloads_agree sample_memory 11%positive
           10%positive 3%positive
           {| startNode := Some 3%positive; stopNode := Some 3%positive;
              isDirty := true |}); reflexivity.
Defined.

Lemma chain_last_live (vsm : gmap addr ValueSet) (l : list addr) (s : addr)
    (p q : ptr) :
  chain vsm p (l ++ [s]) q -> exists vs, vsm !! s = Some vs /\ next vs = q.
Proof.
  revert p. induction l as [|a l IH]; intros p Hch.
  - destruct Hch as (_ & vs & Hvs & Hq). now exists vs.
  - destruct Hch as (_ & vs0 & _ & Hrest). now apply (IH _ Hrest).
Qed.

(** X16. Prepending a non-empty Partition to itself leaves the Partition
    record as it was and points the [next] of its last node back to its
    first: the list it held has become a ring. *)
Theorem partitionPrepend_head_self (m : Memory) (p : addr) (pt : Partition)
    (l : list addr) (q : ptr) :
  partitions m !! p = Some pt ->
  holds (valueSets m) pt l q -> l <> [] -> NoDup l ->
  exists m',
    ValueSetSolver.partitionPrepend_head p p m = Some (tt, m')
    /\ partitions m' = partitions m
    /\ chain (valueSets m') (startNode pt) l (startNode pt).
Proof.
  intros Hp [Hch Hlast] Hne Hnd.
  destruct (last l) as [s|] eqn:Hl; [|now apply last_None in Hl].
  apply last_Some in Hl as [l' ->].
  destruct (chain_last_live _ _ _ _ _ Hch) as (vs & Hs & _).
  apply NoDup_app in Hnd as (_ & Hsl & _).
  assert (Hs_l' : s ∉ l').
  { intros Hin. apply (Hsl s Hin). now left. }
  eexists. split; [apply (partitionPrepend_head_run m p p s pt pt vs);
                   assumption|].
  cbn [partitions valueSets]. split.
  - rewrite Hlast. apply insert_id. rewrite Hp. f_equal.
    destruct pt as [st sp d]. cbn in *. now subst sp.
  - now apply (chain_redirect _ _ _ _ _ q).
Qed.

Lemma partitionPrepend_head_self_witness :
  exists m',
    ValueSetSolver.partitionPrepend_head 10%positive 10%positive sample_memory
      = Some (tt, m')
    /\ partitions m' = partitions sample_memory
    /\ chain (valueSets m') (Some 1%positive) [1%positive; 2%positive]
         (Some 1%positive).
Proof.
  apply (partitionPrepend_head_self sample_memory 10%positive
           {| startNode := Some 1%positive; stopNode := Some 2%positive;
              isDirty := false |} [1%positive; 2%positive] None).
  - reflexivity.
  - split; [|reflexivity]. cbn. split; [reflexivity|].
    exists (sample_node (Some 2%positive)). split; [reflexivity|].
    cbn. split; [reflexivity|].
    exists (sample_node None). split; reflexivity.
  - discriminate.
  - apply (bool_decide_unpack _). reflexivity.
Defined.

Lemma prepend_step_holds (vsm : gmap addr ValueSet) (v : addr) (vs : ValueSet)
    (pt : Partition) (lp : list addr) (q : ptr) :
  holds vsm pt lp q -> v ∉ lp ->
  holds (<[v := set_next vs (startNode pt)]> vsm)
    {| startNode := Some v;
       stopNode := match stopNode pt with
                   | None => Some v
                   | Some e => Some e
                   end;
       isDirty := isDirty pt |} (v :: lp) q.
Proof.
  intros [Hch Hlast] Hnot. split; cbn [startNode stopNode].
  - cbn [chain]. split; [reflexivity|].
    exists (set_next vs (startNode pt)).
    split; [apply lookup_insert_eq|]. now apply chain_frame.
  - rewrite last_cons, <- Hlast. destruct (stopNode pt); reflexivity.
Qed.

(** X17. Successive calls of [partitionPrepend(v, part)] build the list in
    reverse: when [part] holds [lp] and the vertices [vs] are live, pairwise
    distinct and not in [lp], after the calls [part] holds [rev vs ++ lp],
    with the same continuation and the same dirty flag. *)
Theorem partitionPrepend_each_builds (vs : list addr) (m : Memory)
    (part : addr) (pt : Partition) (lp : list addr) (q : ptr) :
  partitions m !! part = Some pt ->
  (forall v, v ∈ vs -> is_Some (valueSets m !! v)) ->
  holds (valueSets m) pt lp q ->
  NoDup (vs ++ lp) ->
  exists m' pt',
    partitionPrepend_each vs part m = Some (tt, m')
    /\ partitions m' !! part = Some pt'
    /\ holds (valueSets m') pt' (rev vs ++ lp) q
    /\ isDirty pt' = isDirty pt.
Proof.
  revert m pt lp.
  induction vs as [|v vs IH]; intros m pt lp Hp Hlive Hholds Hnd.
  - exists m, pt. repeat split; try assumption; apply Hholds.
  - destruct (Hlive v) as [node Hv]; [now left|].
    cbn [app] in Hnd. apply NoDup_cons in Hnd as [Hv_not Hnd].
    cbn [partitionPrepend_each]. unfold bind at 1.
    rewrite (partitionPrepend_vertex_run m v part node pt) by assumption.
    set (pt1 := {| startNode := Some v;
                   stopNode := match stopNode pt with
                               | None => Some v
                               | Some e => Some e
                               end;
                   isDirty := isDirty pt |}).
    set (m1 := {| valueSets := <[v := set_next node (startNode pt)]> (valueSets m);
                  partitions := <[part := pt1]> (partitions m) |}).
    destruct (IH m1 pt1 (v :: lp)) as (m' & pt' & Hrun & Hpt' & Hh' & Hd').
    + cbn [m1 partitions]. apply lookup_insert_eq.
    + cbn [m1 valueSets]. intros w Hw.
      destruct (decide (v = w)) as [->|Hvw].
      * rewrite lookup_insert_eq. now eexists.
      * rewrite lookup_insert_ne by assumption. apply Hlive. now right.
    + cbn [m1 valueSets]. apply prepend_step_holds; [exact Hholds|].
      intros Hin. apply Hv_not, elem_of_app. now right.
    + rewrite <- Permutation_middle. now apply NoDup_cons.
    + exists m', pt'. split; [exact Hrun|]. split; [exact Hpt'|].
      cbn [rev]. rewrite <- app_assoc. cbn [app]. split; [exact Hh'|].
      exact Hd'.
Qed.

Lemma partitionPrepend_each_builds_witness :
  exists m' pt',
    partitionPrepend_each [3%positive; 4%positive] 12%positive sample_memory
      = Some (tt, m')
    /\ partitions m' !! 12%positive = Some pt'
    /\ holds (valueSets m') pt' (rev [3%positive; 4%positive] ++ []) None
    /\ isDirty pt' = isDirty Partition_new.
Proof.
  apply (partitionPrepend_each_builds [3%positive; 4%positive] sample_memory
           12%positive Partition_new [] None).
  - reflexivity.
  - intros v Hv.
    apply elem_of_cons in Hv as [->|Hv]; [now eexists|].
    apply elem_of_cons in Hv as [->|Hv]; [now eexists|].
    now apply elem_of_nil in Hv.
  - split; reflexivity.
  - apply (bool_decide_unpack _). reflexivity.
Defined.

(** * Every member once, and the numeric bounds *)

Lemma iterate_valid_any_fuel (r : CircleRange) (fuel : nat) (vals : list Z) :
  valid r = true -> iterate fuel r = Some vals ->
  vals = map (visited r (left r)) (seq 0 (Z.to_nat (cardinality r))).
Proof.
  intros Hv Hrun. pose proof (iterate_valid r Hv) as Hrun'.
  unfold iterate in *.
  apply (iterate_from_fuel_mono r _ (Nat.max fuel (Z.to_nat (cardinality r))))
    in Hrun; [|lia].
  apply (iterate_from_fuel_mono r _ (Nat.max fuel (Z.to_nat (cardinality r))))
    in Hrun'; [|lia].
  congruence.
Qed.

(** X18. On every non-empty range that satisfies the representation
    invariant, the full range over eight bytes included, the protocol
    stops, and whenever it has stopped the body has seen each member of the
    range exactly once and nothing else. *)
Theorem protocol_visits_each_member_once (r : CircleRange) :
  valid r = true -> isempty r = false ->
  (exists fuel vals, iterate fuel r = Some vals)
  /\ (forall fuel vals, iterate fuel r = Some vals ->
        NoDup vals /\ forall v, v ∈ vals <-> member r v).
Proof.
  intros Hv Hne. split.
  - eexists _, _. apply (iterate_valid r Hv).
  - intros fuel vals Hrun.
    rewrite (iterate_valid_any_fuel r fuel vals Hv Hrun).
    split; [now apply visited_NoDup|].
    intros v. rewrite <- visited_member by assumption.
    destruct (cardinality_span r Hv) as (Hpos & _).
    change (map ?f ?l) with (f <$> l). rewrite list_elem_of_fmap. split.
    + intros (j & -> & Hj). apply elem_of_seq in Hj.
      exists j. split; [lia|reflexivity].
    + intros (j & Hj & ->). exists j. split; [reflexivity|].
      apply elem_of_seq. lia.
Qed.

Lemma protocol_visits_each_member_once_witness :
  (exists fuel vals, iterate fuel full64 = Some vals)
  /\ (forall fuel vals, iterate fuel full64 = Some vals ->
        NoDup vals /\ forall v, v ∈ vals <-> member full64 v).
Proof.
  apply (protocol_visits_each_member_once full64).
  - vm_compute. reflexivity.
  - reflexivity.
Defined.

(** X19. On a valid range that does not wrap ([left < right]), [getMax()]
    is [right - step] and every value the body sees lies between
    [getMin()] and [getMax()]. *)
Theorem unwrapped_range_bounds (r : CircleRange) (fuel : nat) (vals : list Z) :
  valid r = true -> left r < right r ->
  iterate fuel r = Some vals ->
  getMax r = right r - step r
  /\ forall v, v ∈ vals -> getMin r <= v <= getMax r.
Proof.
  intros Hv Hlt Hrun.
  destruct (valid_facts r Hv) as (Hm & Hs & _ & Hl & Hr & Hd).
  assert (HM : 0 < mask r + 1) by (apply is_mask_pos; assumption).
  rewrite (Z.mod_small (right r - left r)) in Hd by lia.
  assert (Hc : cardinality r * step r = right r - left r).
  { unfold cardinality. apply Z.ltb_lt in Hlt. rewrite Hlt.
    rewrite Z.mul_comm. symmetry. apply Z_div_exact_full_2; [lia|assumption]. }
  assert (Hpos : 0 < cardinality r) by nia.
  assert (Hmax : getMax r = right r - step r).
  { rewrite getMax_mod by assumption. apply Z.mod_small. nia. }
  split; [exact Hmax|].
  rewrite (iterate_valid_any_fuel r fuel vals Hv Hrun).
  intros v Hin. change (map ?f ?l) with (f <$> l) in Hin.
  apply list_elem_of_fmap in Hin as (j & -> & Hj). apply elem_of_seq in Hj.
  rewrite visited_left by assumption.
  rewrite Hmax. unfold getMin. rewrite Z.mod_small by nia. nia.
Qed.

Lemma unwrapped_range_bounds_witness :
  getMax below_two = right below_two - step below_two
  /\ forall v, v ∈ [0; 1] -> getMin below_two <= v <= getMax below_two.
Proof.
  apply (unwrapped_range_bounds below_two 2 [0; 1]).
  - vm_compute. reflexivity.
  - reflexivity.
  - reflexivity.
Defined.
